(** * JSML: a shallow embedding of [src/JSML.js]

    JSML builds a markup tree out of callable element handles and renders
    it either to a string ([html]) or through the host document API
    ([dom]).  This file embeds the builder, the two renderers and the tag
    registry, and proves the properties the specification states about
    them.

    Conventions of the embedding.
    - A JS string is a [string]; [null] and [undefined] are two distinct
      values; numbers, symbols and functions other than element handles are
      left out of the value universe (their string conversion is the
      floating-point and source-text machinery of the host), and the
      properties of an attribute object hold primitive values.
    - Every [ElementBuilder]/[FragmentBuilder] object lives in a heap and is
      named by its address; the callable handle [ce] and its [ce.build] are
      created together and never separated, so both carry that address.
    - The source mutates [this]; here the receiver's fields are the state
      of a small state-and-exception monad.
    - [html] and [dom] recurse through handles that the caller may have
      tied into a cycle ([d(d)]); they take a recursion budget and answer
      [Fuel] when it is exhausted. *)

From Stdlib Require Import Ascii String NArith.
From stdpp Require Import gmap strings list fin_maps.

Set Warnings "-register-all".

Local Open Scope string_scope.
Local Open Scope list_scope.

(** ** JavaScript values *)

(** Primitive values that reach the renderers. *)
Inductive prim : Type :=
| PNull
| PUndefined
| PBool (b : bool)
| PStr (s : string).

(** An object, as [for (k in o)] walks it: the enumerable property names
    with their values, in enumeration order. *)
Abbreviation obj := (list (string * prim)).

(** Values a caller can pass to a handle. *)
Inductive value : Type :=
| VNull
| VUndefined
| VBool (b : bool)
| VStr (s : string)
| VArr (items : list value)
| VObj (props : obj)
| VHandle (ce : nat).

(** [ToString] on primitives, as applied by [+] with a string operand. *)
Definition ToString (p : prim) : string :=
  match p with
  | PNull => "null"
  | PUndefined => "undefined"
  | PBool true => "true"
  | PBool false => "false"
  | PStr s => s
  end.

(** [Array.prototype.join("")]: [null] and [undefined] elements contribute
    the empty string, every other element its [ToString]. *)
Definition join_item (p : prim) : string :=
  match p with
  | PNull | PUndefined => ""
  | _ => ToString p
  end.

Fixpoint join (arr : list prim) : string :=
  match arr with
  | [] => ""
  | p :: rest => join_item p +:+ join rest
  end.

(** ** Ordinary objects: property order *)

Definition digit_of (c : ascii) : option N :=
  let n := N_of_ascii c in
  if ((48 <=? n) && (n <=? 57))%N then Some (n - 48)%N else None.

Fixpoint digits_value (acc : N) (s : string) : option N :=
  match s with
  | EmptyString => Some acc
  | String c rest =>
      match digit_of c with
      | Some d => digits_value (10 * acc + d)%N rest
      | None => None
      end
  end.

(** A property name is an array index when it is the canonical decimal
    form of an integer below 2^32 - 1. *)
Definition array_index (k : string) : option N :=
  match k with
  | EmptyString => None
  | String "0"%char EmptyString => Some 0%N
  | String "0"%char _ => None
  | _ =>
      match digits_value 0 k with
      | Some n => if (n <? 4294967295)%N then Some n else None
      | None => None
      end
  end.

Fixpoint obj_get (o : obj) (k : string) : option prim :=
  match o with
  | [] => None
  | (k', v) :: rest => if String.eqb k' k then Some v else obj_get rest k
  end.

(** Assigning to a name the object already has keeps its place. *)
Fixpoint obj_update (o : obj) (k : string) (v : prim) : obj :=
  match o with
  | [] => []
  | (k', v') :: rest =>
      if String.eqb k' k then (k, v) :: rest
      else (k', v') :: obj_update rest k v
  end.

(** A new array-index name goes among the array indices in ascending
    numeric order, ahead of every other name. *)
Fixpoint obj_insert_index (o : obj) (i : N) (k : string) (v : prim) : obj :=
  match o with
  | [] => [(k, v)]
  | (k', v') :: rest =>
      match array_index k' with
      | Some j =>
          if (j <? i)%N then (k', v') :: obj_insert_index rest i k v
          else (k, v) :: (k', v') :: rest
      | None => (k, v) :: (k', v') :: rest
      end
  end.

(** Writing the own data property [k] of an object whose own properties
    are [o]: an existing one takes the value where it stands, a new one
    is created. *)
Definition obj_set (o : obj) (k : string) (v : prim) : obj :=
  match obj_get o k with
  | Some _ => obj_update o k v
  | None =>
      match array_index k with
      | Some i => obj_insert_index o i k v
      | None => o ++ [(k, v)]
      end
  end.

(** The object kept in [_attrs]: its own enumerable properties, and
    whether its prototype is still [Object.prototype], from which it
    inherits the accessor [__proto__]. *)
Record attrs_object : Type := mkAttrs {
  own : obj;
  inherits : bool
}.

(** A list of properties stands for the plain object [{...}] that has
    them. *)
Definition plain_object (o : list (string * prim)) : attrs_object :=
  mkAttrs o true.

#[warnings="-uniform-inheritance"]
Coercion plain_object : list >-> attrs_object.

#[local] Arguments Some {A} & a.

(** [a[k] = v].  A name the object owns is written as a data property.
    Otherwise the name [__proto__] reaches, while the object inherits
    from [Object.prototype], the setter found there: [null] cuts the
    prototype off, any other primitive is ignored, and no property is
    created.  Every other name becomes a new own property. *)
Definition attrs_set (a : attrs_object) (k : string) (v : prim)
    : attrs_object :=
  match obj_get (own a) k with
  | None =>
      if String.eqb k "__proto__" && inherits a
      then match v with
           | PNull => mkAttrs (own a) false
           | _ => a
           end
      else mkAttrs (obj_set (own a) k v) (inherits a)
  | Some _ => mkAttrs (obj_set (own a) k v) (inherits a)
  end.

(** ** Nodes and the heap *)

(** Which prototype chain the object has. *)
Inductive proto : Type :=
| ElementBuilder_prototype
| FragmentBuilder_prototype.

(** An entry of [_children]: a literal, or a callable element. *)
Inductive child : Type :=
| Lit (p : prim)
| Ref (ce : nat).

(** The fields of a builder object.  [_tag = None] is [null],
    [_attrs = None] is [undefined], [_children = None] is [null]. *)
Record Node : Type := mkNode {
  _proto : proto;
  _tag : option string;
  _isSelfClosing : bool;
  _attrs : option attrs_object;
  _children : option (list child)
}.

Abbreviation heap := (list Node).

(** ** Outcomes *)

(** The errors met: the [SyntaxError] that [parse] raises, and the
    [TypeError] of calling what is not a function. *)
Inductive exn : Type :=
| SyntaxError (msg : string)
| TypeError.

(** How a computation ends.  [Fuel]: the recursion budget of a renderer
    ran out.  [Stuck]: the computation leaves what is modelled: a handle
    names no Node of the heap, which no constructor of handles brings
    about, or a property read yields a function that is no handle. *)
Inductive result (A : Type) : Type :=
| Ret (a : A)
| Throw (e : exn)
| Fuel
| Stuck.

Arguments Ret {A} a.
Arguments Throw {A} e.
Arguments Fuel {A}.
Arguments Stuck {A}.

(** A computation over a state [S] that may throw; the state reached at
    the throw is kept, as a JS exception keeps the mutations made so far. *)
Definition M (S A : Type) : Type := S -> S * result A.

Definition ret {S A} (a : A) : M S A := fun s => (s, Ret a).

Definition bind {S A B} (m : M S A) (k : A -> M S B) : M S B :=
  fun s =>
    match m s with
    | (s', Ret a) => k a s'
    | (s', Throw e) => (s', Throw e)
    | (s', Fuel) => (s', Fuel)
    | (s', Stuck) => (s', Stuck)
    end.

Definition throw {S A} (e : exn) : M S A := fun s => (s, Throw e).

#[global] Instance M_ret {S} : MRet (M S) := @ret S.
#[global] Instance M_bind {S} : MBind (M S) := fun A B k m => bind m k.

(** [Array.prototype.forEach]: the callback runs on each element in
    order; a throw ends the walk. *)
Definition forEach {S A} (f : A -> M S unit) : list A -> M S unit :=
  fix each (l : list A) : M S unit :=
    match l with
    | [] => ret tt
    | x :: rest => bind (f x) (fun _ => each rest)
    end.

(** ** The builder *)

(** [new ElementBuilder(tag, selfClosing)]: an empty tag is falsy and leaves
    the prototype's [null]. *)
Definition new_ElementBuilder (tag : string) (selfClosing : bool) : Node :=
  {| _proto := ElementBuilder_prototype;
     _tag := if String.eqb tag "" then None else Some tag;
     _isSelfClosing := selfClosing;
     _attrs := None;
     _children := None |}.

(** [new FragmentBuilder()]. *)
Definition new_FragmentBuilder : Node :=
  {| _proto := FragmentBuilder_prototype;
     _tag := None;
     _isSelfClosing := false;
     _attrs := None;
     _children := None |}.

(** The stored attributes and children, none when the field is unset. *)
Definition attrs_of (n : Node) : obj :=
  match _attrs n with
  | Some a => own a
  | None => []
  end.

(** [this._attrs], or the [{}] that [parse] puts there first. *)
Definition attrs_obj (n : Node) : attrs_object :=
  default (plain_object []) (_attrs n).
Definition children_of (n : Node) : list child := default [] (_children n).

(** [this._attrs[attrname] = item[attrname]] *)
Definition set_attr (k : string) (v : prim) : M Node unit :=
  fun this =>
    ({| _proto := _proto this; _tag := _tag this;
        _isSelfClosing := _isSelfClosing this;
        _attrs := Some (attrs_set (attrs_obj this) k v);
        _children := _children this |}, Ret tt).

(** [if (! this._children) this._children = []; this._children.push(item)] *)
Definition push_child (c : child) : M Node unit :=
  fun this =>
    ({| _proto := _proto this; _tag := _tag this;
        _isSelfClosing := _isSelfClosing this;
        _attrs := _attrs this;
        _children := Some (children_of this ++ [c]) |}, Ret tt).

(** [if (! this._attrs) this._attrs = {}] *)
Definition ensure_attrs : M Node unit :=
  fun this =>
    ({| _proto := _proto this; _tag := _tag this;
        _isSelfClosing := _isSelfClosing this;
        _attrs := Some (attrs_obj this);
        _children := _children this |}, Ret tt).

(** [ElementBuilder.prototype.parse] *)
Fixpoint parse (item : value) : M Node unit :=
  match item with
  | VNull => throw (SyntaxError ("Bad argument: " +:+ ToString PNull))
  | VUndefined => throw (SyntaxError ("Bad argument: " +:+ ToString PUndefined))
  | VArr items => forEach parse items
  | VObj props =>
      ensure_attrs;; forEach (fun kv => set_attr kv.1 kv.2) props
  | VBool b => push_child (Lit (PBool b))
  | VStr s => push_child (Lit (PStr s))
  | VHandle ce => push_child (Ref ce)
  end.

(** The function [ce] made by [callableElement]: every argument goes
    through [build.parse], then the handle itself is returned. *)
Definition call (self : nat) (args : list value) : M heap nat :=
  fun h =>
    match h !! self with
    | None => (h, Stuck)
    | Some build =>
        match forEach parse args build with
        | (build', Ret _) => (<[self := build']> h, Ret self)
        | (build', Throw e) => (<[self := build']> h, Throw e)
        | (build', Fuel) => (<[self := build']> h, Fuel)
        | (build', Stuck) => (<[self := build']> h, Stuck)
        end
    end.

(** ** The string renderer *)

(** The one-character string holding a double quote. *)
Definition dquote : string := String "034"%char EmptyString.

(** [this._tag] as the JS value it is. *)
Definition tag_value (this : Node) : prim :=
  match _tag this with
  | Some t => PStr t
  | None => PNull
  end.

(** What the [for (attrname in this._attrs)] loop of [_openTag] pushes. *)
Fixpoint open_attrs (attrs : obj) : list prim :=
  match attrs with
  | [] => []
  | (attrname, v) :: rest =>
      PStr (" " +:+ attrname)
        :: match v with
           | PNull => open_attrs rest
           | _ => PStr ("=" +:+ dquote +:+ ToString v +:+ dquote)
                    :: open_attrs rest
           end
  end.

Definition _openTag (this : Node) : list prim :=
  [PStr "<"; tag_value this]
    ++ match _attrs this with
       | Some attrs => open_attrs (own attrs)
       | None => []
       end
    ++ [PStr (if _isSelfClosing this then "/>" else ">")].

Definition _closeTag (this : Node) (arr : list prim) : list prim :=
  if _isSelfClosing this then arr
  else arr ++ [PStr ("</" +:+ ToString (tag_value this) +:+ ">")].

(** The object behind a handle ([ce.build]). *)
Definition build_of (ce : nat) : M heap Node :=
  fun h =>
    match h !! ce with
    | Some this => (h, Ret this)
    | None => (h, Stuck)
    end.

Section Children.
(** The renderer to use on a child handle ([ch.build.html()],
    [ch.build.dom()]). *)
Context {R : Type} (render : nat -> M heap R).

(** The walk shared by [_innerHTML] and [_domChildren]: an accumulator
    is extended once per child, in order. *)
Definition each_child {Acc : Type}
    (on_ref : Acc -> R -> Acc) (on_lit : Acc -> prim -> Acc)
    : list child -> Acc -> M heap Acc :=
  fix walk (cs : list child) (acc : Acc) : M heap Acc :=
    match cs with
    | [] => ret acc
    | Ref ce :: rest => bind (render ce) (fun r => walk rest (on_ref acc r))
    | Lit p :: rest => walk rest (on_lit acc p)
    end.
End Children.

Definition _innerHTML (html_of : nat -> M heap string)
    (this : Node) (arr : list prim) : M heap (list prim) :=
  if _isSelfClosing this then ret arr
  else
    match _children this with
    | Some cs =>
        each_child html_of (fun arr s => arr ++ [PStr s])
          (fun arr p => arr ++ [p]) cs arr
    | None => ret arr
    end.

(** [html], by the prototype of the receiver: [ElementBuilder.prototype.html]
    or the override installed on [FragmentBuilder.prototype]. *)
Fixpoint html (fuel : nat) (ce : nat) : M heap string :=
  match fuel with
  | O => fun h => (h, Fuel)
  | S fuel' =>
      this ← build_of ce;
      match _proto this with
      | ElementBuilder_prototype =>
          arr ← _innerHTML (html fuel') this (_openTag this);
          mret (join (_closeTag this arr))
      | FragmentBuilder_prototype =>
          arr ← _innerHTML (html fuel') this [];
          mret (join arr)
      end
  end.

(** ** The document API and the structural renderer *)

(** Nodes of the host document, as far as the five operations used by the
    source can tell them apart.  Attribute values and text are strings:
    the host converts whatever [setAttribute] and [createTextNode]
    receive.  [createElement] and [setAttribute] are modelled as the host
    behaves on a name it accepts and keeps as it is ([host_name] below);
    on other names a host may throw [InvalidCharacterError] or, in an HTML
    document, lower the case, which is not modelled.  Properties that
    depend on it assume [host_name]. *)
Inductive dom_node : Type :=
| Element (tagName : string) (attributes : list (string * string))
    (childNodes : list dom_node)
| Text (data : string)
| DocumentFragment (childNodes : list dom_node).

(** Names that every host document accepts and keeps as they are: a
    lower-case ASCII letter followed by lower-case ASCII letters, digits
    and hyphens. *)
Definition lower_letter (c : ascii) : bool :=
  let n := N_of_ascii c in ((97 <=? n) && (n <=? 122))%N.

Definition name_tail_char (c : ascii) : bool :=
  let n := N_of_ascii c in
  lower_letter c || ((48 <=? n) && (n <=? 57))%N || (n =? 45)%N.

Fixpoint name_tail (s : string) : bool :=
  match s with
  | EmptyString => true
  | String c rest => name_tail_char c && name_tail rest
  end.

Definition host_name (s : string) : bool :=
  match s with
  | EmptyString => false
  | String c rest => lower_letter c && name_tail rest
  end.

Definition createElement (tag : prim) : dom_node :=
  Element (ToString tag) [] [].

Definition createTextNode (data : prim) : dom_node := Text (ToString data).

Definition createDocumentFragment : dom_node := DocumentFragment [].

Fixpoint attr_replace (attrs : list (string * string)) (name value : string)
    : option (list (string * string)) :=
  match attrs with
  | [] => None
  | (n, v) :: rest =>
      if String.eqb n name then Some ((n, value) :: rest)
      else match attr_replace rest name value with
           | Some rest' => Some ((n, v) :: rest')
           | None => None
           end
  end.

(** The attribute list after [setAttribute]: an attribute of that name
    takes the new value where it stands, a new one goes last. *)
Definition attr_set (attrs : list (string * string)) (name value : string)
    : list (string * string) :=
  match attr_replace attrs name value with
  | Some attrs' => attrs'
  | None => attrs ++ [(name, value)]
  end.

(** [el.setAttribute(name, value)] *)
Definition setAttribute (el : dom_node) (name : string) (value : prim)
    : dom_node :=
  match el with
  | Element t attrs kids => Element t (attr_set attrs name (ToString value)) kids
  | _ => el
  end.

(** [parent.appendChild(node)]: a document fragment hands over its
    children instead of being inserted itself. *)
Definition appendChild (parent node : dom_node) : dom_node :=
  let added :=
    match node with
    | DocumentFragment kids => kids
    | _ => [node]
    end in
  match parent with
  | Element t attrs kids => Element t attrs (kids ++ added)
  | DocumentFragment kids => DocumentFragment (kids ++ added)
  | Text _ => parent
  end.

Fixpoint dom_attrs (el : dom_node) (attrs : obj) : dom_node :=
  match attrs with
  | [] => el
  | (attrname, v) :: rest => dom_attrs (setAttribute el attrname v) rest
  end.

(** [ElementBuilder.prototype._domElement], and its override for
    fragments. *)
Definition _domElement (this : Node) : dom_node :=
  match _proto this with
  | ElementBuilder_prototype =>
      let el := createElement (tag_value this) in
      match _attrs this with
      | Some attrs => dom_attrs el (own attrs)
      | None => el
      end
  | FragmentBuilder_prototype => createDocumentFragment
  end.

Definition _domChildren (dom_of : nat -> M heap dom_node)
    (this : Node) (el : dom_node) : M heap dom_node :=
  if _isSelfClosing this then ret el
  else
    match _children this with
    | Some cs =>
        each_child dom_of appendChild
          (fun el p => appendChild el (createTextNode p)) cs el
    | None => ret el
    end.

Fixpoint dom (fuel : nat) (ce : nat) : M heap dom_node :=
  match fuel with
  | O => fun h => (h, Fuel)
  | S fuel' =>
      this ← build_of ce;
      _domChildren (dom fuel') this (_domElement this)
  end.

(** ** The registry *)

(** [callableElement]: the new object enters the heap and its handle is
    returned. *)
Definition callableElement (build : Node) : M heap nat :=
  fun h => (h ++ [build], Ret (length h)).

Definition _parseTag (tag : string) : string * bool :=
  if String.eqb (substring (String.length tag - 1) 1 tag) "/"
  then (substring 0 (String.length tag - 1) tag, true)
  else (tag, false).

(** The getters a [JSML] object owns: the name of each, with the
    self-closing flag its closure captured (the captured tag is the name
    itself). *)
Abbreviation registry := (gmap string bool).

(** The names through which [tags] and [create] reach their helpers and
    callers reach them.  A getter that [tags] defines under one of them
    hides the method from then on; registries are modelled while these
    names are free ([methods_intact] below). *)
Definition method_names : list string :=
  ["_parseTag"; "__defineGetter__"; "tags"; "create"].

(** [JSML.prototype.tags] on a registry whose methods are in place;
    defining a getter again replaces it. *)
Definition tags (names : list string) (reg : registry) : registry :=
  foldl (fun reg tag => let args := _parseTag tag in <[args.1 := args.2]> reg)
    reg names.

(** [new JSML(...)] *)
Definition JSML (names : list string) : registry := tags names ∅.

(** [JSML.prototype.create], on a registry whose methods are in place. *)
Definition create (tag : string) : M heap nat :=
  let args := _parseTag tag in
  callableElement (new_ElementBuilder args.1 args.2).

(** The other names a registry inherits from [JSML.prototype] and
    [Object.prototype]; they read as functions or objects that are no
    handles. *)
Definition inherited_names : list string :=
  ["constructor"; "tags"; "create"; "_parseTag"; "toString";
   "__defineGetter__"; "__defineSetter__"; "__lookupGetter__";
   "__lookupSetter__"; "hasOwnProperty"; "isPrototypeOf";
   "propertyIsEnumerable"; "toLocaleString"; "valueOf"; "__proto__"].

(** Reading [registry.name]: the own getter when [tags] defined one;
    otherwise what the prototypes hold: the fragment accessor for [frag],
    a value outside the model for the other inherited names, and
    [undefined] for every other name. *)
Definition getter (reg : registry) (name : string) : M heap value :=
  match reg !! name with
  | Some selfClosing =>
      ce ← callableElement (new_ElementBuilder name selfClosing);
      mret (VHandle ce)
  | None =>
      if String.eqb name "frag" then
        ce ← callableElement new_FragmentBuilder;
        mret (VHandle ce)
      else if existsb (String.eqb name) inherited_names then
        fun h => (h, Stuck)
      else mret VUndefined
  end.

(** Reading [registry.frag]: the prototype's getter, unless [tags] put an
    own getter of that name in front of it. *)
Definition frag (reg : registry) : M heap value :=
  match reg !! "frag" with
  | Some _ => getter reg "frag"
  | None =>
      ce ← callableElement new_FragmentBuilder;
      mret (VHandle ce)
  end.

(** Calling whatever a property read produced: a handle runs [call], any
    other value is not a function. *)
Definition invoke (callee : value) (args : list value) : M heap value :=
  match callee with
  | VHandle ce => ce' ← call ce args; mret (VHandle ce')
  | _ => throw TypeError
  end.

(** [v.build.html()] on such a value. *)
Definition build_html (fuel : nat) (v : value) : M heap string :=
  match v with
  | VHandle ce => html fuel ce
  | _ => throw TypeError
  end.

(** [ce(args1)(args2)...]: each call is made on what the previous one
    returned. *)
Fixpoint chain (ce : nat) (calls : list (list value)) : M heap nat :=
  match calls with
  | [] => ret ce
  | args :: rest => ce' ← call ce args; chain ce' rest
  end.

(** ** Reading the argument list as the specification does *)

(** The arguments with every array opened up, in left-to-right order. *)
Fixpoint flatten (v : value) : list value :=
  match v with
  | VArr items => concat (map flatten items)
  | _ => [v]
  end.

Definition flatten_all (args : list value) : list value :=
  concat (map flatten args).

(** Is the value, or something inside it at any depth, [null] or
    [undefined]? *)
Fixpoint has_nothing (v : value) : bool :=
  match v with
  | VNull | VUndefined => true
  | VArr items => existsb has_nothing items
  | _ => false
  end.

(** A child argument: a literal, a handle, or an array of child
    arguments. *)
Fixpoint child_arg (v : value) : bool :=
  match v with
  | VBool _ | VStr _ | VHandle _ => true
  | VArr items => forallb child_arg items
  | _ => false
  end.

(** The child entry a literal or handle becomes. *)
Definition child_entry (v : value) : list child :=
  match v with
  | VBool b => [Lit (PBool b)]
  | VStr s => [Lit (PStr s)]
  | VHandle ce => [Ref ce]
  | _ => []
  end.

(** The literals and handles met in the flattened argument list. *)
Definition flat_children (args : list value) : list child :=
  concat (map child_entry (flatten_all args)).

(** No property of the object is named [__proto__]. *)
Definition no_proto_key (o : obj) : bool :=
  forallb (fun kv => negb (String.eqb kv.1 "__proto__")) o.

(** The left-to-right merge of attribute objects into a mapping: each
    pair is written in turn, a later write to a name replacing the earlier
    one. *)
Definition merge_pairs (m : gmap string prim) (o : obj) : gmap string prim :=
  foldl (fun m kv => <[kv.1 := kv.2]> m) m o.

Definition merge_attrs (m : gmap string prim) (objs : list obj)
    : gmap string prim :=
  foldl merge_pairs m objs.

(** The attribute mapping a Node stores. *)
Definition attr_map (n : Node) : gmap string prim :=
  list_to_map (attrs_of n).

(** ** Induction on nested values *)

Section ValueInd.
Variable P : value -> Prop.
Hypothesis Hnull : P VNull.
Hypothesis Hundef : P VUndefined.
Hypothesis Hbool : forall b, P (VBool b).
Hypothesis Hstr : forall s, P (VStr s).
Hypothesis Harr : forall items, Forall P items -> P (VArr items).
Hypothesis Hobj : forall props, P (VObj props).
Hypothesis Hhandle : forall ce, P (VHandle ce).

Fixpoint value_nested_ind (v : value) : P v :=
  match v with
  | VNull => Hnull
  | VUndefined => Hundef
  | VBool b => Hbool b
  | VStr s => Hstr s
  | VArr items =>
      Harr items
        ((fix all (l : list value) : Forall P l :=
            match l with
            | [] => Stdlib.Lists.List.Forall_nil P
            | x :: rest =>
                Stdlib.Lists.List.Forall_cons P x rest (value_nested_ind x) (all rest)
            end) items)
  | VObj props => Hobj props
  | VHandle ce => Hhandle ce
  end.
End ValueInd.

(** [null] or [undefined] itself. *)
Definition is_nothing (v : value) : bool :=
  match v with
  | VNull | VUndefined => true
  | _ => false
  end.

(** The text of the error [parse] raises on such a value. *)
Definition bad_argument (v : value) : exn :=
  SyntaxError ("Bad argument: " +:+
               match v with
               | VNull => ToString PNull
               | _ => ToString PUndefined
               end).

(** ** Reading the renderers as the specification does *)

Definition res_map {A B} (f : A -> B) (r : result A) : result B :=
  match r with
  | Ret a => Ret (f a)
  | Throw e => Throw e
  | Fuel => Fuel
  | Stuck => Stuck
  end.

(** One attribute of an open tag: a space and the name, then the quoted
    value unless the value is [null]. *)
Definition attr_text (kv : string * prim) : string :=
  " " +:+ kv.1 +:+
  match kv.2 with
  | PNull => ""
  | v => "=" +:+ dquote +:+ ToString v +:+ dquote
  end.

Fixpoint attrs_text (attrs : obj) : string :=
  match attrs with
  | [] => ""
  | kv :: rest => attr_text kv +:+ attrs_text rest
  end.

(** The rendered children, one after the other: a handle by its own
    [html], a literal by its string form. *)
Definition children_html (fuel : nat) (cs : list child) : M heap string :=
  each_child (html fuel) String.append
    (fun acc p => acc +:+ join_item p) cs "".

(** The nodes [appendChild] adds for one argument. *)
Definition appended (node : dom_node) : list dom_node :=
  match node with
  | DocumentFragment kids => kids
  | _ => [node]
  end.

(** The document nodes of the children, in order. *)
Definition children_dom (fuel : nat) (cs : list child)
    : M heap (list dom_node) :=
  each_child (dom fuel) (fun acc d => acc ++ appended d)
    (fun acc p => acc ++ [createTextNode p]) cs [].

(** The attribute list [setAttribute] builds from the stored
    attributes. *)
Definition dom_attr_list (attrs : obj) : list (string * string) :=
  foldl (fun l kv => attr_set l kv.1 (ToString kv.2)) [] attrs.

Fixpoint sconcat (l : list string) : string :=
  match l with
  | [] => ""
  | x :: rest => x +:+ sconcat rest
  end.

(** The text form of a document tree used to compare it with [html]:
    every attribute is written with its value, [void] tells which tag
    names are written self-closed. *)
Fixpoint serialize (void : string -> bool) (d : dom_node) : string :=
  match d with
  | Text data => data
  | DocumentFragment kids => sconcat (map (serialize void) kids)
  | Element t attrs kids =>
      "<" +:+ t +:+
      sconcat
        (map (fun kv => " " +:+ kv.1 +:+ "=" +:+ dquote +:+ kv.2 +:+ dquote)
           attrs) +:+
      (if void t then "/>"
       else ">" +:+ sconcat (map (serialize void) kids) +:+
            "</" +:+ t +:+ ">")
  end.

(** Nodes on which the two renderers can be compared through
    [serialize]: an element has a tag, written self-closed exactly when
    the Node is self-closing, and the host takes the tag and the
    attribute names as they are; no attribute holds [null]; attribute
    names are distinct; no literal child is [null] or [undefined]. *)
Definition plain_node (void : string -> bool) (this : Node) : Prop :=
  (_proto this = ElementBuilder_prototype ->
   exists t, _tag this = Some t /\ void t = _isSelfClosing this /\
             host_name t = true /\
             Forall (fun kv => host_name kv.1 = true) (attrs_of this)) /\
  Forall (fun kv => kv.2 <> PNull) (attrs_of this) /\
  NoDup (map fst (attrs_of this)) /\
  Forall (fun c => c <> Lit PNull /\ c <> Lit PUndefined) (children_of this).

(** The handles among the children of a Node. *)
Definition child_refs (this : Node) : list nat :=
  flat_map (fun c => match c with Ref ce => [ce] | Lit _ => [] end)
    (children_of this).

(** [reaches h b x]: rendering [b] may look at [x]. *)
Inductive reaches (h : heap) : nat -> nat -> Prop :=
| reaches_here (b : nat) : reaches h b b
| reaches_child (b c x : nat) (this : Node) :
    h !! b = Some this -> In c (child_refs this) -> reaches h c x ->
    reaches h b x.

(** A heap without cycles or dangling handles: every child handle names
    a Node of strictly smaller rank. *)
Definition ranked (h : heap) (rank : nat -> nat) : Prop :=
  forall ce this ch,
    h !! ce = Some this -> In ch (child_refs this) ->
    rank ch < rank ce /\ is_Some (h !! ch).

(** The registry's methods are in place: no own getter hides one. *)
Definition methods_intact (reg : registry) : Prop :=
  Forall (fun m => reg !! m = None) method_names.

(** A tag specification whose name is none of the method names. *)
Definition benign (tag : string) : bool :=
  forallb (fun m => negb (String.eqb (_parseTag tag).1 m)) method_names.

(** An element whose tag and attribute names the host takes as they
    are. *)
Definition host_node (n : Node) : Prop :=
  _proto n = ElementBuilder_prototype ->
  host_name (ToString (tag_value n)) = true /\
  Forall (fun kv => host_name kv.1 = true) (attrs_of n).

(** The text of the children, from what each handle renders to: a
    literal gives its string form, a handle its rendering; the first
    handle that does not return decides. *)
Fixpoint children_text (render : nat -> result string) (cs : list child)
    : result string :=
  match cs with
  | [] => Ret ""
  | Lit p :: rest =>
      res_map (String.append (join_item p)) (children_text render rest)
  | Ref ce :: rest =>
      match render ce with
      | Ret s => res_map (String.append s) (children_text render rest)
      | Throw e => Throw e
      | Fuel => Fuel
      | Stuck => Stuck
      end
  end.

(** The document nodes of the children, from what each handle builds: a
    literal gives a text node, an element itself, a fragment its own
    children. *)
Fixpoint children_nodes (render : nat -> result dom_node) (cs : list child)
    : result (list dom_node) :=
  match cs with
  | [] => Ret []
  | Lit p :: rest =>
      res_map (cons (Text (ToString p))) (children_nodes render rest)
  | Ref ce :: rest =>
      match render ce with
      | Ret (DocumentFragment kids) =>
          res_map (app kids) (children_nodes render rest)
      | Ret d => res_map (cons d) (children_nodes render rest)
      | Throw e => Throw e
      | Fuel => Fuel
      | Stuck => Stuck
      end
  end.

(** [frag("a", li, li, "b")], as a heap: the fragment at 0, the two list
    items at 1 and 2. *)
Definition fragment_heap : heap :=
  [ {| _proto := FragmentBuilder_prototype; _tag := None;
       _isSelfClosing := false; _attrs := None;
       _children := Some [Lit (PStr "a"); Ref 1; Ref 2; Lit (PStr "b")] |};
    new_ElementBuilder "li" false;
    new_ElementBuilder "li" false ].

(** ** Further readings used by the properties *)

(** Did the computation return? *)
Definition returned {A} (r : result A) : bool :=
  match r with
  | Ret _ => true
  | _ => false
  end.




(** A document tree in which no document fragment occurs. *)
Fixpoint fragment_free (d : dom_node) : bool :=
  match d with
  | Element _ _ kids => forallb fragment_free kids
  | Text _ => true
  | DocumentFragment _ => false
  end.

(** What the renderers read of a Node: an unset [_attrs] and an empty
    one, an unset [_children] and an empty one, look the same. *)
Definition same_view (n n' : Node) : Prop :=
  _proto n = _proto n' /\ _tag n = _tag n' /\
  _isSelfClosing n = _isSelfClosing n' /\
  attrs_of n = attrs_of n' /\ children_of n = children_of n'.

(** A child entry as the constructors make it: not a [null] or
    [undefined] literal, and a handle only below [bound]. *)
Definition child_ok (bound : nat) (c : child) : Prop :=
  match c with
  | Lit PNull | Lit PUndefined => False
  | Lit _ => True
  | Ref ce => ce < bound
  end.

(** A Node as calls leave it: attribute names are distinct and every
    child is in order; a heap in which all Nodes are so and every handle
    held as a child names a Node. *)
Definition node_wf (bound : nat) (n : Node) : Prop :=
  NoDup (map fst (attrs_of n)) /\ Forall (child_ok bound) (children_of n).

Definition heap_wf (h : heap) : Prop :=
  forall ce n, h !! ce = Some n -> node_wf (length h) n.

(** ** The usage examples of the source's header comment *)

(** [registry.tags("body", "br/"); registry.body(registry.br())], then
    [.build.html()]. *)
Definition body_br : M heap string :=
  let registry := tags ["body"; "br/"] (JSML []) in
  body ← getter registry "body";
  br ← getter registry "br";
  br1 ← invoke br [];
  tmpl ← invoke body [br1];
  build_html 2 tmpl.

(** [img({src: "a.png"})({alt: "pic"})] *)
Definition img_chained : M heap string :=
  let registry := JSML ["img/"] in
  img ← getter registry "img";
  img1 ← invoke img [VObj [("src", PStr "a.png")]];
  img2 ← invoke img1 [VObj [("alt", PStr "pic")]];
  build_html 1 img2.

(** [img({src: "a.png", alt: "pic"})] *)
Definition img_combined : M heap string :=
  let registry := JSML ["img/"] in
  img ← getter registry "img";
  img1 ← invoke img [VObj [("src", PStr "a.png"); ("alt", PStr "pic")]];
  build_html 1 img1.

(** [create("input")({disabled: null})], rendered both ways. *)
Definition input_disabled : M heap (string * dom_node) :=
  input ← create "input";
  input1 ← call input [VObj [("disabled", PNull)]];
  text ← html 1 input1;
  tree ← dom 1 input1;
  mret (text, tree).

(** [<input type="checkbox" checked/>], as a Node. *)
Definition checkbox : Node :=
  {| _proto := ElementBuilder_prototype; _tag := Some "input";
     _isSelfClosing := true;
     _attrs := Some [("type", PStr "checkbox"); ("checked", PNull)];
     _children := None |}.

(** [p({id: "x"}, "a", br)], as a heap: the paragraph at 0, the line
    break at 1. *)
Definition paragraph_heap : heap :=
  [ {| _proto := ElementBuilder_prototype; _tag := Some "p";
       _isSelfClosing := false;
       _attrs := Some [("id", PStr "x")];
       _children := Some [Lit (PStr "a"); Ref 1] |};
    {| _proto := ElementBuilder_prototype; _tag := Some "br";
       _isSelfClosing := true; _attrs := None; _children := None |} ].

(** [ul([li, li, li])] *)
Definition ul_array : M heap string :=
  let registry := JSML ["ul"; "li"] in
  ul ← getter registry "ul";
  li1 ← getter registry "li";
  li2 ← getter registry "li";
  li3 ← getter registry "li";
  ul1 ← invoke ul [VArr [li1; li2; li3]];
  build_html 2 ul1.

(** [ul(li)(li)(li)] *)
Definition ul_chained : M heap string :=
  let registry := JSML ["ul"; "li"] in
  ul ← getter registry "ul";
  li1 ← getter registry "li";
  ul1 ← invoke ul [li1];
  li2 ← getter registry "li";
  ul2 ← invoke ul1 [li2];
  li3 ← getter registry "li";
  ul3 ← invoke ul2 [li3];
  build_html 2 ul3.

(** [ul(li, li, li)] *)
Definition ul_flat : M heap string :=
  let registry := JSML ["ul"; "li"] in
  ul ← getter registry "ul";
  li1 ← getter registry "li";
  li2 ← getter registry "li";
  li3 ← getter registry "li";
  ul1 ← invoke ul [li1; li2; li3];
  build_html 2 ul1.

(** Fields that [parse] never assigns, and the two ways it can end. *)
Definition parse_frame (this : Node) (out : Node * result unit) : Prop :=
  _proto out.1 = _proto this /\ _tag out.1 = _tag this /\
  _isSelfClosing out.1 = _isSelfClosing this /\
  children_of this `prefix_of` children_of out.1 /\
  (out.2 = Ret tt \/
   out.2 = Throw (SyntaxError "Bad argument: null") \/
   out.2 = Throw (SyntaxError "Bad argument: undefined")).

(** * Properties *)

(** ** The monad *)

Lemma bind_ret_tt {S} (m : M S unit) (s : S) :
  bind m (fun _ => ret tt) s = m s.
Proof. unfold bind, ret. destruct (m s) as [s' [[]| | |]]; reflexivity. Qed.

Lemma forEach_cons {S A} (f : A -> M S unit) (x : A) (l : list A) (s : S) :
  forEach f (x :: l) s = bind (f x) (fun _ => forEach f l) s.
Proof. reflexivity. Qed.

Lemma forEach_one {S A} (f : A -> M S unit) (x : A) (s : S) :
  forEach f [x] s = f x s.
Proof. apply bind_ret_tt. Qed.

Lemma forEach_app {S A} (f : A -> M S unit) (l1 l2 : list A) (s : S) :
  forEach f (l1 ++ l2) s = bind (forEach f l1) (fun _ => forEach f l2) s.
Proof.
  revert s. induction l1 as [|x l1 IH]; intros s; simpl.
  - reflexivity.
  - unfold bind. destruct (f x s) as [s' []]; try reflexivity.
    rewrite IH. reflexivity.
Qed.

(** ** Arrays are opened in place *)

Lemma parse_arr items : parse (VArr items) = forEach parse items.
Proof. reflexivity. Qed.

Lemma parse_flatten (v : value) (this : Node) :
  parse v this = forEach parse (flatten v) this.
Proof.
  revert this. induction v using value_nested_ind; intros this;
    try (symmetry; apply forEach_one).
  rewrite parse_arr. simpl flatten.
  revert this. induction H as [|x rest Hx _ IH]; intros this.
  - reflexivity.
  - simpl concat. rewrite forEach_app. simpl forEach.
    unfold bind. rewrite Hx.
    destruct (forEach parse (flatten x) this) as [s' []]; try reflexivity.
    apply IH.
Qed.

Lemma forEach_parse_flatten (args : list value) (this : Node) :
  forEach parse args this = forEach parse (flatten_all args) this.
Proof. rewrite <- parse_arr. apply (parse_flatten (VArr args)). Qed.

(** ** What one call does to the heap *)

Lemma call_unfold (self : nat) (args : list value) (h : heap) (build : Node) :
  h !! self = Some build ->
  call self args h =
    (<[self := (forEach parse args build).1]> h,
     match (forEach parse args build).2 with
     | Ret _ => Ret self
     | Throw e => Throw e
     | Fuel => Fuel
     | Stuck => Stuck
     end).
Proof.
  intros Hb. unfold call. rewrite Hb.
  destruct (forEach parse args build) as [build' []]; reflexivity.
Qed.

Lemma heap_lookup_written (h : heap) (self : nat) (old new : Node) :
  h !! self = Some old -> <[self := new]> h !! self = Some new.
Proof.
  intros Hb. apply list_lookup_insert_eq. eapply lookup_lt_is_Some_1. eauto.
Qed.

Lemma call_app (self : nat) (a1 a2 : list value) (h : heap) (build : Node) :
  h !! self = Some build ->
  call self (a1 ++ a2) h = bind (call self a1) (fun ce => call ce a2) h.
Proof.
  intros Hb. unfold bind at 1.
  rewrite (call_unfold self a1 h build Hb), (call_unfold self (a1 ++ a2) h build Hb).
  rewrite forEach_app. unfold bind.
  destruct (forEach parse a1 build) as [b1 [[]| | |]]; simpl; try reflexivity.
  rewrite (call_unfold self a2 _ b1 (heap_lookup_written _ _ _ _ Hb)).
  rewrite list_insert_insert_eq. reflexivity.
Qed.

Lemma call_nil (self : nat) (h : heap) (build : Node) :
  h !! self = Some build -> call self [] h = (h, Ret self).
Proof.
  intros Hb. rewrite (call_unfold _ _ _ _ Hb). simpl.
  rewrite list_insert_id; auto.
Qed.

Lemma call_returns_self (self : nat) (args : list value) (h h' : heap) (r : nat) :
  call self args h = (h', Ret r) -> r = self.
Proof.
  unfold call. destruct (h !! self) as [build|]; [|discriminate].
  destruct (forEach parse args build) as [b' []]; congruence.
Qed.

Lemma call_keeps_handle (self : nat) (args : list value) (h : heap) (build : Node) :
  h !! self = Some build ->
  exists build', (call self args h).1 !! self = Some build'.
Proof.
  intros Hb. rewrite (call_unfold _ _ _ _ Hb). simpl.
  eexists. eapply heap_lookup_written; eauto.
Qed.

Lemma chain_concat (calls : list (list value)) (self : nat) (h : heap)
    (build : Node) :
  h !! self = Some build ->
  chain self calls h = call self (concat calls) h.
Proof.
  revert h build. induction calls as [|args rest IH]; intros h build Hb.
  - simpl. symmetry. eapply call_nil; eauto.
  - simpl concat. rewrite (call_app _ _ _ _ _ Hb).
    change (chain self (args :: rest)) with
      (bind (call self args) (fun ce' => chain ce' rest)).
    unfold bind.
    destruct (call_keeps_handle self args h build Hb) as [b1 Hb1].
    destruct (call self args h) as [h1 [r| | |]] eqn:E; try reflexivity.
    apply call_returns_self in E as ->.
    simpl in Hb1. eapply IH; eauto.
Qed.

Lemma call_flatten (self : nat) (args : list value) (h : heap) :
  call self args h = call self (flatten_all args) h.
Proof.
  unfold call. destruct (h !! self) as [build|]; [|reflexivity].
  rewrite forEach_parse_flatten. reflexivity.
Qed.

(** ** What [parse] does to the receiver *)

Lemma forEach_set_attr (props : obj) (this : Node) :
  forEach (fun kv => set_attr kv.1 kv.2) props this =
    ({| _proto := _proto this; _tag := _tag this;
        _isSelfClosing := _isSelfClosing this;
        _attrs := match props with
                  | [] => _attrs this
                  | _ => Some (foldl (fun a kv => attrs_set a kv.1 kv.2)
                                 (attrs_obj this) props)
                  end;
        _children := _children this |}, Ret tt).
Proof.
  revert this. induction props as [|[k v] rest IH]; intros this.
  - destruct this; reflexivity.
  - simpl forEach. unfold bind. simpl. rewrite IH. simpl.
    destruct rest; reflexivity.
Qed.

Lemma parse_obj (props : obj) (this : Node) :
  parse (VObj props) this =
    ({| _proto := _proto this; _tag := _tag this;
        _isSelfClosing := _isSelfClosing this;
        _attrs := Some (foldl (fun a kv => attrs_set a kv.1 kv.2)
                          (attrs_obj this) props);
        _children := _children this |}, Ret tt).
Proof.
  simpl. unfold mbind, M_bind, bind. simpl. rewrite forEach_set_attr. simpl.
  destruct props; reflexivity.
Qed.

Lemma parse_frame_trans (a b : Node) (out : Node * result unit) :
  parse_frame a (b, Ret tt) -> parse_frame b out -> parse_frame a out.
Proof.
  unfold parse_frame. simpl. intros (E1 & E2 & E3 & E4 & _) (F1 & F2 & F3 & F4 & F5).
  repeat split; try congruence. etrans; eauto.
Qed.

Lemma forEach_parse_frame (items : list value) :
  Forall (fun v => forall this, parse_frame this (parse v this)) items ->
  forall this, parse_frame this (forEach parse items this).
Proof.
  induction 1 as [|x rest Hx _ IH]; intros this.
  - unfold parse_frame. simpl. auto 10.
  - simpl forEach. unfold bind. specialize (Hx this).
    destruct (parse x this) as [b r] eqn:E.
    destruct Hx as (E1 & E2 & E3 & E4 & [E5 | [E5 | E5]]); simpl in *; subst r.
    + eapply parse_frame_trans; [|apply IH]. unfold parse_frame. simpl. auto 10.
    + unfold parse_frame. simpl. auto 10.
    + unfold parse_frame. simpl. auto 10.
Qed.

Lemma parse_frame_holds (v : value) (this : Node) :
  parse_frame this (parse v this).
Proof.
  revert this. induction v using value_nested_ind; intros this.
  - unfold parse_frame. simpl. auto 10.
  - unfold parse_frame. simpl. auto 10.
  - unfold parse_frame. simpl. repeat split; auto. apply prefix_app_r. done.
  - unfold parse_frame. simpl. repeat split; auto. apply prefix_app_r. done.
  - rewrite parse_arr. apply forEach_parse_frame. assumption.
  - rewrite parse_obj. unfold parse_frame. simpl. auto 10.
  - unfold parse_frame. simpl. repeat split; auto. apply prefix_app_r. done.
Qed.

Lemma forEach_parse_frame_holds (args : list value) (this : Node) :
  parse_frame this (forEach parse args this).
Proof.
  apply forEach_parse_frame. apply Forall_forall. intros v _.
  apply parse_frame_holds.
Qed.

(** ** Arguments that hold [null] or [undefined] *)

Lemma existsb_split {A} (p : A -> bool) (l : list A) :
  existsb p l = true ->
  exists before x after,
    l = before ++ x :: after /\ p x = true /\
    Forall (fun v => p v = false) before.
Proof.
  induction l as [|a l IH]; simpl; [discriminate|].
  destruct (p a) eqn:Ea; simpl.
  - intros _. exists [], a, l. auto.
  - intros H. destruct (IH H) as (before & x & after & -> & Hx & Hb).
    exists (a :: before), x, after. auto.
Qed.

Lemma existsb_concat {A} (p : A -> bool) (ls : list (list A)) :
  existsb p (concat ls) = existsb (existsb p) ls.
Proof.
  induction ls as [|l ls IH]; simpl; [reflexivity|].
  rewrite existsb_app, IH. reflexivity.
Qed.

Lemma has_nothing_flatten (v : value) :
  has_nothing v = existsb is_nothing (flatten v).
Proof.
  induction v using value_nested_ind; try reflexivity.
  simpl. rewrite existsb_concat.
  induction H as [|x rest Hx _ IH]; simpl; [reflexivity|].
  rewrite Hx, IH. reflexivity.
Qed.

Lemma has_nothing_flatten_all (args : list value) :
  existsb has_nothing args = existsb is_nothing (flatten_all args).
Proof. apply (has_nothing_flatten (VArr args)). Qed.

(** Everything [flatten] returns is a leaf: on a leaf, [has_nothing] and
    [is_nothing] agree. *)
Lemma flatten_leaves (v : value) :
  Forall (fun x => has_nothing x = is_nothing x) (flatten v).
Proof.
  induction v using value_nested_ind; try (repeat constructor).
  simpl. induction H as [|x rest Hx _ IH]; simpl.
  - constructor.
  - apply Forall_app. auto.
Qed.

Lemma flatten_all_leaves (args : list value) :
  Forall (fun x => has_nothing x = is_nothing x) (flatten_all args).
Proof. apply (flatten_leaves (VArr args)). Qed.

Lemma parse_result_nothing (v : value) (this : Node) :
  (parse v this).2 = Ret tt <-> has_nothing v = false.
Proof.
  revert this. induction v using value_nested_ind; intros this;
    try (simpl; split; [reflexivity|]; reflexivity);
    try (simpl; split; discriminate).
  - rewrite parse_arr. simpl has_nothing. revert this.
    induction H as [|x rest Hx _ IH]; intros this; simpl.
    + split; reflexivity.
    + unfold bind. specialize (Hx this).
      pose proof (parse_frame_holds x this) as (_ & _ & _ & _ & Hr).
      destruct (parse x this) as [b r]. simpl in *.
      destruct (has_nothing x).
      * simpl. destruct Hr as [-> | [-> | ->]]; simpl.
        -- destruct Hx as [Hx _]. specialize (Hx eq_refl). discriminate.
        -- split; discriminate.
        -- split; discriminate.
      * destruct Hx as [_ Hx]. rewrite (Hx eq_refl). simpl. apply IH.
  - rewrite parse_obj. simpl. split; reflexivity.
Qed.

Lemma forEach_parse_ok (args : list value) (this : Node) :
  Forall (fun v => has_nothing v = false) args ->
  (forEach parse args this).2 = Ret tt.
Proof.
  intros Hall. rewrite <- parse_arr. apply parse_result_nothing.
  simpl. apply not_true_is_false. intros Hex.
  apply existsb_exists in Hex as (x & Hin & Hx).
  rewrite Forall_forall in Hall. apply list_elem_of_In in Hin.
  rewrite (Hall x Hin) in Hx. discriminate.
Qed.

Lemma call_ok (self : nat) (args : list value) (h : heap) (build : Node) :
  h !! self = Some build ->
  Forall (fun v => has_nothing v = false) args ->
  call self args h = (<[self := (forEach parse args build).1]> h, Ret self).
Proof.
  intros Hb Hall. rewrite (call_unfold _ _ _ _ Hb).
  rewrite (forEach_parse_ok args build Hall). reflexivity.
Qed.

Lemma call_nothing_first (self : nat) (x : value) (after : list value)
    (h : heap) (build : Node) :
  h !! self = Some build -> is_nothing x = true ->
  call self (x :: after) h = (h, Throw (bad_argument x)).
Proof.
  intros Hb Hx. rewrite (call_unfold _ _ _ _ Hb).
  destruct x; try discriminate; simpl; rewrite list_insert_id; auto.
Qed.

(** ** Child arguments *)

Lemma child_arg_no_nothing (v : value) :
  child_arg v = true -> has_nothing v = false.
Proof.
  induction v using value_nested_ind; simpl; try congruence.
  intros Hall. induction H as [|x rest Hx _ IH]; simpl in *; [reflexivity|].
  apply andb_prop in Hall as [H1 H2]. rewrite (Hx H1). simpl. auto.
Qed.

Lemma parse_child_arg (v : value) (this : Node) :
  child_arg v = true ->
  _attrs (parse v this).1 = _attrs this /\
  children_of (parse v this).1 =
    children_of this ++ concat (map child_entry (flatten v)).
Proof.
  revert this. induction v using value_nested_ind; intros this; simpl;
    try discriminate; try (intros _; split; reflexivity).
  intros Hall. revert this.
  induction H as [|x rest Hx _ IH]; intros this; simpl in *.
  - split; [reflexivity|]. rewrite app_nil_r. reflexivity.
  - apply andb_prop in Hall as [H1 H2].
    unfold bind. destruct (Hx this H1) as [Ea Ec].
    pose proof (proj2 (parse_result_nothing x this)
                  (child_arg_no_nothing x H1)) as Er.
    destruct (parse x this) as [b r]. simpl in *. subst r.
    destruct (IH H2 b) as [Fa Fc]. split; [congruence|].
    rewrite Fc, Ec, map_app, concat_app, app_assoc. reflexivity.
Qed.

Lemma forEach_child_args (args : list value) (this : Node) :
  forallb child_arg args = true ->
  _attrs (forEach parse args this).1 = _attrs this /\
  children_of (forEach parse args this).1 =
    children_of this ++ flat_children args.
Proof. intros H. apply (parse_child_arg (VArr args) this H). Qed.

(** ** Attribute objects *)

Lemma obj_get_update (o : obj) (k k' : string) (v : prim) :
  obj_get (obj_update o k v) k' =
    match obj_get o k with
    | Some _ => if String.eqb k k' then Some v else obj_get o k'
    | None => obj_get o k'
    end.
Proof.
  induction o as [|[a w] o IH]; simpl; [reflexivity|].
  destruct (String.eqb a k) eqn:Eak; simpl.
  - apply String.eqb_eq in Eak as ->.
    destruct (String.eqb k k'); reflexivity.
  - rewrite IH. destruct (obj_get o k); [|reflexivity].
    destruct (String.eqb k k') eqn:Ekk; [|reflexivity].
    apply String.eqb_eq in Ekk as <-. rewrite Eak. reflexivity.
Qed.

Lemma obj_get_insert_index (o : obj) (i : N) (k k' : string) (v : prim) :
  obj_get o k = None ->
  obj_get (obj_insert_index o i k v) k' =
    if String.eqb k k' then Some v else obj_get o k'.
Proof.
  induction o as [|[a w] o IH]; simpl; [reflexivity|].
  destruct (String.eqb a k) eqn:Eak; [discriminate|]. intros Hk.
  destruct (array_index a) as [j|]; [destruct (j <? i)%N|]; simpl;
    try reflexivity.
  rewrite (IH Hk). destruct (String.eqb k k') eqn:Ekk; [|reflexivity].
  apply String.eqb_eq in Ekk as <-. rewrite Eak. reflexivity.
Qed.

Lemma obj_get_app (o1 o2 : obj) (k : string) :
  obj_get (o1 ++ o2) k =
    match obj_get o1 k with
    | Some v => Some v
    | None => obj_get o2 k
    end.
Proof.
  induction o1 as [|[a w] o1 IH]; simpl; [reflexivity|].
  destruct (String.eqb a k); auto.
Qed.

(** Reading back after [o[k] = v]. *)
Lemma obj_get_set (o : obj) (k k' : string) (v : prim) :
  obj_get (obj_set o k v) k' =
    if String.eqb k k' then Some v else obj_get o k'.
Proof.
  unfold obj_set. destruct (obj_get o k) eqn:Ek.
  - rewrite obj_get_update, Ek. reflexivity.
  - destruct (array_index k).
    + apply obj_get_insert_index. assumption.
    + rewrite obj_get_app. simpl.
      destruct (String.eqb k k') eqn:Ekk.
      * apply String.eqb_eq in Ekk as <-. rewrite Ek. reflexivity.
      * destruct (obj_get o k'); reflexivity.
Qed.

Lemma list_to_map_obj_get (o : obj) (k : string) :
  (list_to_map o : gmap string prim) !! k = obj_get o k.
Proof.
  induction o as [|[a w] o IH]; simpl.
  - apply lookup_empty.
  - destruct (String.eqb a k) eqn:Eak.
    + apply String.eqb_eq in Eak as ->. apply lookup_insert_eq.
    + rewrite lookup_insert_ne; [assumption|].
      intros ->. rewrite String.eqb_refl in Eak. discriminate.
Qed.

Lemma list_to_map_obj_set (o : obj) (k : string) (v : prim) :
  (list_to_map (obj_set o k v) : gmap string prim) = <[k := v]> (list_to_map o).
Proof.
  apply map_eq. intros k'. rewrite list_to_map_obj_get, obj_get_set.
  destruct (String.eqb k k') eqn:Ekk.
  - apply String.eqb_eq in Ekk as <-. rewrite lookup_insert_eq. reflexivity.
  - rewrite lookup_insert_ne; [symmetry; apply list_to_map_obj_get|].
    intros ->. rewrite String.eqb_refl in Ekk. discriminate.
Qed.

Lemma list_to_map_obj_sets (props o : obj) :
  (list_to_map (foldl (fun o kv => obj_set o kv.1 kv.2) o props)
     : gmap string prim) = merge_pairs (list_to_map o) props.
Proof.
  revert o. induction props as [|[k v] rest IH]; intros o; simpl.
  - reflexivity.
  - rewrite IH, list_to_map_obj_set. reflexivity.
Qed.

Lemma attrs_set_own (a : attrs_object) (k : string) (v : prim) :
  String.eqb k "__proto__" = false ->
  attrs_set a k v = mkAttrs (obj_set (own a) k v) (inherits a).
Proof.
  intros E. unfold attrs_set. rewrite E. simpl.
  destruct (obj_get (own a) k); reflexivity.
Qed.

Lemma foldl_attrs_set_own (props : obj) (a : attrs_object) :
  no_proto_key props = true ->
  own (foldl (fun a kv => attrs_set a kv.1 kv.2) a props) =
    foldl (fun o kv => obj_set o kv.1 kv.2) (own a) props.
Proof.
  revert a. induction props as [|[k v] rest IH]; intros a Hno; simpl.
  - reflexivity.
  - simpl in Hno. apply andb_prop in Hno as [Hk Hrest].
    apply negb_true_iff in Hk. rewrite (IH _ Hrest), (attrs_set_own a k v Hk).
    reflexivity.
Qed.

Lemma own_attrs_obj (n : Node) : own (attrs_obj n) = attrs_of n.
Proof. unfold attrs_obj, attrs_of. destruct (_attrs n); reflexivity. Qed.

Lemma forEach_attr_objects (objs : list obj) (this : Node) :
  forallb no_proto_key objs = true ->
  exists this',
    forEach parse (map VObj objs) this = (this', Ret tt) /\
    _children this' = _children this /\
    (objs <> [] -> _attrs this' <> None) /\
    attr_map this' = merge_attrs (attr_map this) objs.
Proof.
  revert this. induction objs as [|o rest IH]; intros this Hno.
  - exists this. repeat split; auto.
  - simpl in Hno. apply andb_prop in Hno as [Ho Hrest].
    simpl map. rewrite forEach_cons. unfold bind. rewrite parse_obj.
    match goal with |- context [forEach parse _ ?b] =>
      destruct (IH b Hrest) as (this' & E & Ec & Ea & Em) end.
    exists this'. split; [exact E|]. split; [exact Ec|]. split.
    + intros _. destruct rest; [|apply Ea; congruence].
      simpl in E. injection E as <-. discriminate.
    + rewrite Em. simpl. f_equal. unfold attr_map, attrs_of at 1. simpl.
      rewrite (foldl_attrs_set_own o _ Ho), own_attrs_obj.
      apply list_to_map_obj_sets.
Qed.

(** ** The renderers only read the heap *)

Section EachChild.
Context {R1 R2 A1 A2 : Type}.
Variables (render1 : nat -> M heap R1) (render2 : nat -> M heap R2).
Variables (f : R1 -> R2) (g : A1 -> A2).
Variables (on_ref1 : A1 -> R1 -> A1) (on_lit1 : A1 -> prim -> A1).
Variables (on_ref2 : A2 -> R2 -> A2) (on_lit2 : A2 -> prim -> A2).
Variable h : heap.
Variable ok : child -> Prop.

Hypothesis render_sim : forall ce,
  ok (Ref ce) ->
  (render1 ce h).1 = h /\
  render2 ce h = (h, res_map f (render1 ce h).2).
Hypothesis ref_sim : forall acc r, g (on_ref1 acc r) = on_ref2 (g acc) (f r).
Hypothesis lit_sim : forall acc p,
  ok (Lit p) -> g (on_lit1 acc p) = on_lit2 (g acc) p.

(** Two walks over the same children, whose renderers and accumulators
    correspond step by step, end in corresponding results and leave
    the heap as it was. *)
Lemma each_child_sim (cs : list child) (acc : A1) :
  Forall ok cs ->
  (each_child render1 on_ref1 on_lit1 cs acc h).1 = h /\
  each_child render2 on_ref2 on_lit2 cs (g acc) h =
    (h, res_map g (each_child render1 on_ref1 on_lit1 cs acc h).2).
Proof.
  intros Hok. revert acc.
  induction Hok as [|c rest Hc _ IH]; intros acc; simpl.
  - split; reflexivity.
  - destruct c as [p|ce].
    + rewrite <- (lit_sim acc p Hc). apply IH.
    + unfold bind. destruct (render_sim ce Hc) as [E1 E2]. rewrite E2.
      destruct (render1 ce h) as [h1 [r| | |]]; simpl in *; subst h1;
        try (split; reflexivity).
      rewrite <- ref_sim. apply IH.
Qed.
End EachChild.

Lemma build_of_run (ce : nat) (h : heap) :
  build_of ce h = (h, match h !! ce with Some this => Ret this | None => Stuck end).
Proof. unfold build_of. destruct (h !! ce); reflexivity. Qed.

Lemma each_child_frame {R A} (render : nat -> M heap R)
    (on_ref : A -> R -> A) (on_lit : A -> prim -> A)
    (cs : list child) (acc : A) (h : heap) :
  (forall ce, (render ce h).1 = h) ->
  (each_child render on_ref on_lit cs acc h).1 = h.
Proof.
  intros Hr.
  apply (each_child_sim render render id id on_ref on_lit on_ref on_lit h
           (fun _ => True)); auto.
  - intros ce _. split; [apply Hr|].
    specialize (Hr ce). destruct (render ce h) as [h1 []]; simpl in *;
      subst; reflexivity.
  - apply Forall_forall. auto.
Qed.

Lemma html_frame (fuel ce : nat) (h : heap) : (html fuel ce h).1 = h.
Proof.
  revert ce. induction fuel as [|fuel IH]; intros ce; [reflexivity|].
  simpl. unfold mbind, M_bind, bind. rewrite build_of_run.
  destruct (h !! ce) as [this|]; [|reflexivity].
  assert (Hin : forall arr, (_innerHTML (html fuel) this arr h).1 = h).
  { intros arr. unfold _innerHTML.
    destruct (_isSelfClosing this); [reflexivity|].
    destruct (_children this); [|reflexivity].
    apply each_child_frame. exact IH. }
  destruct (_proto this).
  - specialize (Hin (_openTag this)).
    destruct (_innerHTML (html fuel) this (_openTag this) h) as [h1 []];
      exact Hin.
  - specialize (Hin []).
    destruct (_innerHTML (html fuel) this [] h) as [h1 []]; exact Hin.
Qed.

Lemma dom_frame (fuel ce : nat) (h : heap) : (dom fuel ce h).1 = h.
Proof.
  revert ce. induction fuel as [|fuel IH]; intros ce; [reflexivity|].
  simpl. unfold mbind, M_bind, bind. rewrite build_of_run.
  destruct (h !! ce) as [this|]; [|reflexivity].
  unfold _domChildren.
  destruct (_isSelfClosing this); [reflexivity|].
  destruct (_children this); [|reflexivity].
  apply each_child_frame. exact IH.
Qed.

Lemma run_eta {S A} (m : M S A) (s : S) : m s = ((m s).1, (m s).2).
Proof. destruct (m s); reflexivity. Qed.

Lemma html_run (fuel ce : nat) (h : heap) :
  html fuel ce h = (h, (html fuel ce h).2).
Proof. rewrite (run_eta (html fuel ce) h) at 1. rewrite html_frame. reflexivity. Qed.

Lemma dom_run (fuel ce : nat) (h : heap) :
  dom fuel ce h = (h, (dom fuel ce h).2).
Proof. rewrite (run_eta (dom fuel ce) h) at 1. rewrite dom_frame. reflexivity. Qed.

(** ** The text [html] returns *)

Lemma sapp_assoc (a b c : string) : (a +:+ b) +:+ c = a +:+ (b +:+ c).
Proof.
  induction a as [|x a IH]; [reflexivity|].
  change ((String x a +:+ b) +:+ c) with (String x ((a +:+ b) +:+ c)).
  rewrite IH. reflexivity.
Qed.

Lemma sapp_nil_r (a : string) : a +:+ "" = a.
Proof.
  induction a as [|x a IH]; [reflexivity|].
  change (String x a +:+ "") with (String x (a +:+ "")).
  rewrite IH. reflexivity.
Qed.

Lemma sapp_nil_l (a : string) : "" +:+ a = a.
Proof. reflexivity. Qed.

Lemma join_app (a b : list prim) : join (a ++ b) = join a +:+ join b.
Proof.
  induction a as [|p a IH]; simpl; [reflexivity|].
  rewrite IH, sapp_assoc. reflexivity.
Qed.

Lemma join_one (p : prim) : join [p] = join_item p.
Proof. simpl. apply sapp_nil_r. Qed.

Lemma join_open_attrs (attrs : obj) : join (open_attrs attrs) = attrs_text attrs.
Proof.
  induction attrs as [|[k v] rest IH]; [reflexivity|].
  unfold attrs_text; fold attrs_text. unfold attr_text. simpl fst. simpl snd.
  rewrite <- IH. destruct v; simpl;
    rewrite ?sapp_assoc, ?sapp_nil_l; reflexivity.
Qed.

Lemma join_openTag (this : Node) :
  join (_openTag this) =
    "<" +:+ join_item (tag_value this) +:+ attrs_text (attrs_of this) +:+
    (if _isSelfClosing this then "/>" else ">").
Proof.
  unfold _openTag. rewrite !join_app, join_one.
  change (join [PStr "<"; tag_value this])
    with ("<" +:+ join_item (tag_value this) +:+ "").
  rewrite sapp_nil_r, !sapp_assoc. unfold attrs_of.
  destruct (_attrs this); simpl default; [rewrite join_open_attrs|];
    reflexivity.
Qed.

Lemma res_map_compose {A B C} (f : B -> C) (g : A -> B) (r : result A) :
  res_map f (res_map g r) = res_map (fun a => f (g a)) r.
Proof. destruct r; reflexivity. Qed.

Lemma res_map_ext {A B} (f g : A -> B) (r : result A) :
  (forall a, f a = g a) -> res_map f r = res_map g r.
Proof. intros H. destruct r; simpl; rewrite ?H; reflexivity. Qed.

Lemma res_map_id {A} (r : result A) : res_map id r = r.
Proof. destruct r; reflexivity. Qed.

Lemma bind_ret_run {S A B} (m : M S A) (f : A -> B) (s : S) :
  bind m (fun a => ret (f a)) s = ((m s).1, res_map f (m s).2).
Proof. unfold bind, ret. destruct (m s) as [s' []]; reflexivity. Qed.

(** Walking the children with a text accumulator: what was accumulated
    before stays in front. *)
Lemma children_text_from (render : nat -> M heap string) (cs : list child)
    (pre : string) (h : heap) :
  (forall ce, (render ce h).1 = h) ->
  each_child render String.append (fun acc p => acc +:+ join_item p) cs pre h =
    (h, res_map (String.append pre)
          (each_child render String.append
             (fun acc p => acc +:+ join_item p) cs "" h).2).
Proof.
  intros Hr. rewrite <- (sapp_nil_r pre) at 1.
  apply (each_child_sim render render id (String.append pre)
           String.append (fun acc p => acc +:+ join_item p)
           String.append (fun acc p => acc +:+ join_item p) h
           (fun _ => True)).
  - intros ce _. split; [apply Hr|]. rewrite res_map_id.
    rewrite (run_eta (render ce) h) at 1. rewrite Hr. reflexivity.
  - intros acc r. symmetry. apply sapp_assoc.
  - intros acc p _. symmetry. apply sapp_assoc.
  - apply Forall_forall. auto.
Qed.

Lemma innerHTML_text (fuel : nat) (this : Node) (arr : list prim) (h : heap) :
  (_innerHTML (html fuel) this arr h).1 = h /\
  res_map join (_innerHTML (html fuel) this arr h).2 =
    if _isSelfClosing this then Ret (join arr)
    else res_map (String.append (join arr))
           (children_html fuel (children_of this) h).2.
Proof.
  unfold _innerHTML, children_html, children_of.
  destruct (_isSelfClosing this); [split; reflexivity|].
  destruct (_children this) as [cs|]; simpl default.
  - pose proof (each_child_sim (html fuel) (html fuel) id join
                  (fun arr s => arr ++ [PStr s]) (fun arr p => arr ++ [p])
                  String.append (fun acc p => acc +:+ join_item p) h
                  (fun _ => True)) as Hsim.
    destruct (Hsim) with (cs := cs) (acc := arr) as [E1 E2].
    + intros ce _. split; [apply html_frame|]. rewrite res_map_id.
      apply html_run.
    + intros acc r. rewrite join_app, join_one. reflexivity.
    + intros acc p _. rewrite join_app, join_one. reflexivity.
    + apply Forall_forall. auto.
    + split; [exact E1|].
      rewrite children_text_from in E2 by (intros; apply html_frame).
      injection E2 as E2. symmetry. exact E2.
  - split; [reflexivity|]. simpl. rewrite sapp_nil_r. reflexivity.
Qed.

(** The string an element's [html] returns. *)
Lemma html_element (fuel ce : nat) (h : heap) (this : Node) :
  h !! ce = Some this -> _proto this = ElementBuilder_prototype ->
  html (S fuel) ce h =
    (h,
     if _isSelfClosing this
     then Ret ("<" +:+ join_item (tag_value this) +:+
               attrs_text (attrs_of this) +:+ "/>")
     else res_map
            (fun inner =>
               "<" +:+ join_item (tag_value this) +:+
               attrs_text (attrs_of this) +:+ ">" +:+ inner +:+
               "</" +:+ ToString (tag_value this) +:+ ">")
            (children_html fuel (children_of this) h).2).
Proof.
  intros Hb Hp. simpl. unfold mbind, M_bind, mret, M_ret.
  unfold bind at 1. rewrite build_of_run, Hb, Hp.
  rewrite bind_ret_run.
  destruct (innerHTML_text fuel this (_openTag this) h) as [E1 E2].
  rewrite E1. f_equal.
  set (close := fun s : string =>
         if _isSelfClosing this then s
         else s +:+ "</" +:+ ToString (tag_value this) +:+ ">").
  assert (Hc : forall arr, join (_closeTag this arr) = close (join arr)).
  { intros arr. unfold _closeTag, close.
    destruct (_isSelfClosing this); [reflexivity|].
    rewrite join_app, join_one. reflexivity. }
  rewrite (res_map_ext _ (fun arr => close (join arr)) _ Hc).
  rewrite <- (res_map_compose close join), E2, join_openTag.
  unfold close. destruct (_isSelfClosing this); [reflexivity|].
  rewrite res_map_compose. apply res_map_ext.
  intros inner. rewrite !sapp_assoc. reflexivity.
Qed.

(** The string a fragment's [html] returns. *)
Lemma html_fragment (fuel ce : nat) (h : heap) (this : Node) :
  h !! ce = Some this -> _proto this = FragmentBuilder_prototype ->
  html (S fuel) ce h =
    (h,
     if _isSelfClosing this then Ret ""
     else (children_html fuel (children_of this) h).2).
Proof.
  intros Hb Hp. simpl. unfold mbind, M_bind, mret, M_ret.
  unfold bind at 1. rewrite build_of_run, Hb, Hp.
  rewrite bind_ret_run.
  destruct (innerHTML_text fuel this [] h) as [E1 E2].
  rewrite E1, E2. f_equal.
  destruct (_isSelfClosing this); [reflexivity|].
  simpl join. destruct ((children_html fuel (children_of this) h).2);
    reflexivity.
Qed.

(** ** The tree [dom] returns *)

Lemma dom_attrs_element (attrs : obj) (t : string)
    (l : list (string * string)) (kids : list dom_node) :
  dom_attrs (Element t l kids) attrs =
    Element t (foldl (fun l kv => attr_set l kv.1 (ToString kv.2)) l attrs) kids.
Proof.
  revert l. induction attrs as [|[k v] rest IH]; intros l; simpl.
  - reflexivity.
  - apply IH.
Qed.

Lemma domElement_element (this : Node) :
  _proto this = ElementBuilder_prototype ->
  _domElement this =
    Element (ToString (tag_value this)) (dom_attr_list (attrs_of this)) [].
Proof.
  intros Hp. unfold _domElement, attrs_of, dom_attr_list, createElement.
  rewrite Hp. destruct (_attrs this); simpl default.
  - apply dom_attrs_element.
  - reflexivity.
Qed.

Lemma domChildren_tree (fuel : nat) (this : Node) (mk : list dom_node -> dom_node)
    (h : heap) :
  (forall kids node, mk (kids ++ appended node) = appendChild (mk kids) node) ->
  _domChildren (dom fuel) this (mk []) h =
    (h,
     if _isSelfClosing this then Ret (mk [])
     else res_map mk (children_dom fuel (children_of this) h).2).
Proof.
  intros Hmk. unfold _domChildren, children_dom, children_of.
  destruct (_isSelfClosing this); [reflexivity|].
  destruct (_children this) as [cs|]; simpl default; [|reflexivity].
  apply (each_child_sim (dom fuel) (dom fuel) id mk
           (fun acc d => acc ++ appended d)
           (fun acc p => acc ++ [createTextNode p])
           appendChild (fun el p => appendChild el (createTextNode p)) h
           (fun _ => True)).
  - intros ce _. split; [apply dom_frame|]. rewrite res_map_id. apply dom_run.
  - intros acc r. apply Hmk.
  - intros acc p _. apply (Hmk acc (createTextNode p)).
  - apply Forall_forall. auto.
Qed.

(** The tree an element's [dom] returns. *)
Lemma dom_element (fuel ce : nat) (h : heap) (this : Node) :
  h !! ce = Some this -> _proto this = ElementBuilder_prototype ->
  dom (S fuel) ce h =
    (h,
     if _isSelfClosing this
     then Ret (Element (ToString (tag_value this))
                 (dom_attr_list (attrs_of this)) [])
     else res_map
            (Element (ToString (tag_value this))
               (dom_attr_list (attrs_of this)))
            (children_dom fuel (children_of this) h).2).
Proof.
  intros Hb Hp. simpl. unfold mbind, M_bind, bind.
  rewrite build_of_run, Hb, (domElement_element this Hp).
  apply (domChildren_tree fuel this (Element _ _)).
  intros kids node. reflexivity.
Qed.

(** The tree a fragment's [dom] returns. *)
Lemma dom_fragment (fuel ce : nat) (h : heap) (this : Node) :
  h !! ce = Some this -> _proto this = FragmentBuilder_prototype ->
  dom (S fuel) ce h =
    (h,
     if _isSelfClosing this then Ret (DocumentFragment [])
     else res_map DocumentFragment (children_dom fuel (children_of this) h).2).
Proof.
  intros Hb Hp. simpl. unfold mbind, M_bind, bind.
  rewrite build_of_run, Hb. unfold _domElement. rewrite Hp.
  apply (domChildren_tree fuel this DocumentFragment).
  intros kids node. reflexivity.
Qed.

(** ** The children, read without the walker *)

Lemma children_html_text (fuel : nat) (cs : list child) (h : heap) :
  (children_html fuel cs h).2 =
    children_text (fun c => (html fuel c h).2) cs.
Proof.
  unfold children_html. induction cs as [|c rest IH]; [reflexivity|].
  destruct c as [p|ce]; simpl.
  - rewrite children_text_from by (intros; apply html_frame).
    simpl. rewrite IH. reflexivity.
  - unfold bind. rewrite (html_run fuel ce h).
    destruct ((html fuel ce h).2) as [s| | |]; try reflexivity.
    rewrite children_text_from by (intros; apply html_frame).
    simpl. rewrite IH. reflexivity.
Qed.

Lemma children_nodes_from (fuel : nat) (cs : list child)
    (pre : list dom_node) (h : heap) :
  each_child (dom fuel) (fun acc d => acc ++ appended d)
    (fun acc p => acc ++ [createTextNode p]) cs pre h =
    (h, res_map (app pre)
          (each_child (dom fuel) (fun acc d => acc ++ appended d)
             (fun acc p => acc ++ [createTextNode p]) cs [] h).2).
Proof.
  rewrite <- (app_nil_r pre) at 1.
  apply (each_child_sim (dom fuel) (dom fuel) id (app pre)
           (fun acc d => acc ++ appended d)
           (fun acc p => acc ++ [createTextNode p])
           (fun acc d => acc ++ appended d)
           (fun acc p => acc ++ [createTextNode p]) h (fun _ => True)).
  - intros ce _. split; [apply dom_frame|]. rewrite res_map_id.
    apply dom_run.
  - intros acc r. apply app_assoc.
  - intros acc p _. apply app_assoc.
  - apply Forall_forall. auto.
Qed.

Lemma children_dom_nodes (fuel : nat) (cs : list child) (h : heap) :
  (children_dom fuel cs h).2 =
    children_nodes (fun c => (dom fuel c h).2) cs.
Proof.
  unfold children_dom. induction cs as [|c rest IH]; [reflexivity|].
  destruct c as [p|ce]; simpl.
  - rewrite children_nodes_from. simpl. rewrite IH. apply res_map_ext.
    reflexivity.
  - unfold bind. rewrite (dom_run fuel ce h).
    destruct ((dom fuel ce h).2) as [d| | |]; try reflexivity.
    rewrite children_nodes_from. simpl. rewrite IH.
    destruct d; apply res_map_ext; reflexivity.
Qed.

(** ** Rendering ends on a heap without cycles *)

Lemma each_child_total {R A} (render : nat -> M heap R)
    (on_ref : A -> R -> A) (on_lit : A -> prim -> A)
    (cs : list child) (acc : A) (h : heap) :
  (forall ce, (render ce h).1 = h) ->
  (forall ce, In (Ref ce) cs -> exists r, (render ce h).2 = Ret r) ->
  exists a, (each_child render on_ref on_lit cs acc h).2 = Ret a.
Proof.
  intros Hf. revert acc. induction cs as [|c rest IH]; intros acc Hr; simpl.
  - eauto.
  - destruct c as [p|ce].
    + apply IH. intros ce Hin. apply Hr. right. exact Hin.
    + unfold bind. destruct (Hr ce (or_introl eq_refl)) as [r Er].
      specialize (Hf ce).
      destruct (render ce h) as [h1 r1]. simpl in *. subst h1 r1.
      apply IH. intros ce' Hin. apply Hr. right. exact Hin.
Qed.

Lemma child_refs_In (this : Node) (ce : nat) :
  In (Ref ce) (children_of this) -> In ce (child_refs this).
Proof.
  intros Hin. unfold child_refs. apply in_flat_map.
  exists (Ref ce). split; [exact Hin|]. left. reflexivity.
Qed.

Lemma html_total (h : heap) (rank : nat -> nat) :
  ranked h rank ->
  forall fuel ce, is_Some (h !! ce) -> rank ce < fuel ->
    exists s, html fuel ce h = (h, Ret s).
Proof.
  intros Hrk. induction fuel as [|fuel IH]; intros ce [this Hb] Hlt; [lia|].
  assert (Hcs : exists s, (children_html fuel (children_of this) h).2 = Ret s).
  { apply each_child_total; [intros; apply html_frame|].
    intros ch Hin. apply child_refs_In in Hin.
    destruct (Hrk ce this ch Hb Hin) as [Hlt' Hsome].
    destruct (IH ch Hsome) as [s Es]; [lia|]. exists s. rewrite Es. reflexivity. }
  destruct Hcs as [inner Ei].
  destruct (_proto this) eqn:Hp.
  - rewrite (html_element fuel ce h this Hb Hp), Ei.
    destruct (_isSelfClosing this); simpl; eauto.
  - rewrite (html_fragment fuel ce h this Hb Hp), Ei.
    destruct (_isSelfClosing this); simpl; eauto.
Qed.

Lemma dom_total (h : heap) (rank : nat -> nat) :
  ranked h rank ->
  forall fuel ce, is_Some (h !! ce) -> rank ce < fuel ->
    exists d, dom fuel ce h = (h, Ret d).
Proof.
  intros Hrk. induction fuel as [|fuel IH]; intros ce [this Hb] Hlt; [lia|].
  assert (Hcs : exists s, (children_dom fuel (children_of this) h).2 = Ret s).
  { apply each_child_total; [intros; apply dom_frame|].
    intros ch Hin. apply child_refs_In in Hin.
    destruct (Hrk ce this ch Hb Hin) as [Hlt' Hsome].
    destruct (IH ch Hsome) as [s Es]; [lia|]. exists s. rewrite Es. reflexivity. }
  destruct Hcs as [kids Ei].
  destruct (_proto this) eqn:Hp.
  - rewrite (dom_element fuel ce h this Hb Hp), Ei.
    destruct (_isSelfClosing this); simpl; eauto.
  - rewrite (dom_fragment fuel ce h this Hb Hp), Ei.
    destruct (_isSelfClosing this); simpl; eauto.
Qed.

(** ** What a rendering depends on *)

Lemma call_other (a b : nat) (args : list value) (h : heap) :
  a <> b -> (call a args h).1 !! b = h !! b.
Proof.
  intros Hne. unfold call. destruct (h !! a) as [build|]; [|reflexivity].
  destruct (forEach parse args build) as [b' []]; simpl;
    apply list_lookup_insert_ne; exact Hne.
Qed.

Lemma each_child_heaps {R A} (render : nat -> M heap R)
    (on_ref : A -> R -> A) (on_lit : A -> prim -> A)
    (cs : list child) (acc : A) (h h' : heap) :
  (forall ce, (render ce h).1 = h) ->
  (forall ce, (render ce h').1 = h') ->
  (forall ce, In (Ref ce) cs -> (render ce h').2 = (render ce h).2) ->
  (each_child render on_ref on_lit cs acc h').2 =
    (each_child render on_ref on_lit cs acc h).2.
Proof.
  intros Hf Hf'. revert acc.
  induction cs as [|c rest IH]; intros acc Hr; simpl; [reflexivity|].
  destruct c as [p|ce].
  - apply IH. intros ce Hin. apply Hr. right. exact Hin.
  - unfold bind. specialize (Hr ce (or_introl eq_refl)) as Er.
    specialize (Hf ce). specialize (Hf' ce).
    destruct (render ce h) as [h1 r1], (render ce h') as [h1' r1'].
    simpl in *. subst h1 h1' r1'.
    destruct r1; try reflexivity.
    apply IH. intros ce' Hin. apply Hr. right. exact Hin.
Qed.

Lemma html_stuck (fuel ce : nat) (h : heap) :
  h !! ce = None -> html (S fuel) ce h = (h, Stuck).
Proof.
  intros Hn. simpl. unfold mbind, M_bind, bind. rewrite build_of_run, Hn.
  reflexivity.
Qed.

Lemma dom_stuck (fuel ce : nat) (h : heap) :
  h !! ce = None -> dom (S fuel) ce h = (h, Stuck).
Proof.
  intros Hn. simpl. unfold mbind, M_bind, bind. rewrite build_of_run, Hn.
  reflexivity.
Qed.

(** [html] of [b] is decided by the Nodes [b] reaches. *)
Lemma html_local (h h' : heap) (fuel b : nat) :
  (forall x, reaches h b x -> h' !! x = h !! x) ->
  (html fuel b h').2 = (html fuel b h).2.
Proof.
  revert b. induction fuel as [|fuel IH]; intros b Hsame; [reflexivity|].
  pose proof (Hsame b (reaches_here h b)) as Hb.
  destruct (h !! b) as [this|] eqn:E.
  - assert (Hcs : (children_html fuel (children_of this) h').2 =
                  (children_html fuel (children_of this) h).2).
    { apply each_child_heaps; try (intros; apply html_frame).
      intros c Hin. apply IH. intros x Hx. apply Hsame.
      eapply reaches_child; eauto. apply child_refs_In. exact Hin. }
    destruct (_proto this) eqn:Hp.
    + rewrite (html_element fuel b h' this Hb Hp),
        (html_element fuel b h this E Hp). simpl. rewrite Hcs. reflexivity.
    + rewrite (html_fragment fuel b h' this Hb Hp),
        (html_fragment fuel b h this E Hp). simpl. rewrite Hcs. reflexivity.
  - rewrite (html_stuck fuel b h' Hb), (html_stuck fuel b h E). reflexivity.
Qed.

(** The same for [dom]. *)
Lemma dom_local (h h' : heap) (fuel b : nat) :
  (forall x, reaches h b x -> h' !! x = h !! x) ->
  (dom fuel b h').2 = (dom fuel b h).2.
Proof.
  revert b. induction fuel as [|fuel IH]; intros b Hsame; [reflexivity|].
  pose proof (Hsame b (reaches_here h b)) as Hb.
  destruct (h !! b) as [this|] eqn:E.
  - assert (Hcs : (children_dom fuel (children_of this) h').2 =
                  (children_dom fuel (children_of this) h).2).
    { apply each_child_heaps; try (intros; apply dom_frame).
      intros c Hin. apply IH. intros x Hx. apply Hsame.
      eapply reaches_child; eauto. apply child_refs_In. exact Hin. }
    destruct (_proto this) eqn:Hp.
    + rewrite (dom_element fuel b h' this Hb Hp),
        (dom_element fuel b h this E Hp). simpl. rewrite Hcs. reflexivity.
    + rewrite (dom_fragment fuel b h' this Hb Hp),
        (dom_fragment fuel b h this E Hp). simpl. rewrite Hcs. reflexivity.
  - rewrite (dom_stuck fuel b h' Hb), (dom_stuck fuel b h E). reflexivity.
Qed.

(** A call on [x] cannot change what [y] renders to unless [y] reaches
    [x]. *)
Lemma call_keeps_rendering (g : heap) (x y : nat) (args : list value)
    (fuel : nat) :
  ~ reaches g y x ->
  (html fuel y (call x args g).1).2 = (html fuel y g).2 /\
  (dom fuel y (call x args g).1).2 = (dom fuel y g).2.
Proof.
  intros Hnr.
  assert (Hsame : forall z, reaches g y z -> (call x args g).1 !! z = g !! z).
  { intros z Hz. apply call_other. intros ->. contradiction. }
  split; [apply html_local | apply dom_local]; exact Hsame.
Qed.

Lemma childless_reaches (g : heap) (b x : nat) (this : Node) :
  g !! b = Some this -> _children this = None -> reaches g b x -> x = b.
Proof.
  intros Hb Hc Hr. destruct Hr as [|b c x this' Hb' Hin _]; [reflexivity|].
  rewrite Hb in Hb'. injection Hb' as <-.
  unfold child_refs, children_of in Hin. rewrite Hc in Hin.
  destruct Hin.
Qed.

Lemma getter_run (reg : registry) (name : string) (sc : bool) (h : heap) :
  reg !! name = Some sc ->
  getter reg name h = (h ++ [new_ElementBuilder name sc], Ret (VHandle (length h))).
Proof. intros E. unfold getter. rewrite E. reflexivity. Qed.

Lemma frag_run (reg : registry) (h : heap) :
  exists n,
    frag reg h = (h ++ [n], Ret (VHandle (length h))) /\
    _children n = None /\ _attrs n = None /\
    (reg !! "frag" = None -> n = new_FragmentBuilder).
Proof.
  unfold frag. destruct (reg !! "frag") as [sc|] eqn:E.
  - exists (new_ElementBuilder "frag" sc). rewrite (getter_run _ _ _ _ E).
    repeat split; auto. discriminate.
  - exists new_FragmentBuilder. repeat split; auto.
Qed.

(** ** A larger recursion budget changes nothing once a rendering returns *)

Lemma each_child_mono {R A} (render1 render2 : nat -> M heap R)
    (on_ref : A -> R -> A) (on_lit : A -> prim -> A)
    (cs : list child) (acc a : A) (h : heap) :
  (forall ce, (render1 ce h).1 = h) ->
  (forall ce, (render2 ce h).1 = h) ->
  (forall ce r, (render1 ce h).2 = Ret r -> (render2 ce h).2 = Ret r) ->
  (each_child render1 on_ref on_lit cs acc h).2 = Ret a ->
  (each_child render2 on_ref on_lit cs acc h).2 = Ret a.
Proof.
  intros Hf1 Hf2 Hr. revert acc.
  induction cs as [|c rest IH]; intros acc; simpl; [auto|].
  destruct c as [p|ce]; [apply IH|].
  unfold bind. specialize (Hf1 ce). specialize (Hf2 ce). specialize (Hr ce).
  destruct (render1 ce h) as [h1 r1], (render2 ce h) as [h2 r2].
  simpl in *. subst h1 h2.
  destruct r1 as [r| | |]; try discriminate.
  rewrite (Hr r eq_refl). apply IH.
Qed.

Lemma html_fuel_mono (h : heap) (fuel k ce : nat) (s : string) :
  (html fuel ce h).2 = Ret s -> (html (k + fuel) ce h).2 = Ret s.
Proof.
  revert ce s. induction fuel as [|fuel IH]; intros ce s; [discriminate|].
  replace (k + S fuel) with (S (k + fuel)) by lia.
  destruct (h !! ce) as [this|] eqn:Hb.
  2:{ rewrite (html_stuck fuel ce h Hb). discriminate. }
  assert (Hcs : forall inner,
            (children_html fuel (children_of this) h).2 = Ret inner ->
            (children_html (k + fuel) (children_of this) h).2 = Ret inner).
  { intros inner. apply each_child_mono; try (intros; apply html_frame).
    exact IH. }
  destruct (_proto this) eqn:Hp.
  - rewrite (html_element fuel ce h this Hb Hp),
      (html_element (k + fuel) ce h this Hb Hp). simpl.
    destruct (_isSelfClosing this); [auto|].
    destruct ((children_html fuel (children_of this) h).2) as [inner| | |];
      try discriminate.
    rewrite (Hcs inner eq_refl). auto.
  - rewrite (html_fragment fuel ce h this Hb Hp),
      (html_fragment (k + fuel) ce h this Hb Hp). simpl.
    destruct (_isSelfClosing this); [auto|].
    destruct ((children_html fuel (children_of this) h).2) as [inner| | |];
      try discriminate.
    rewrite (Hcs inner eq_refl). auto.
Qed.

Lemma dom_fuel_mono (h : heap) (fuel k ce : nat) (d : dom_node) :
  (dom fuel ce h).2 = Ret d -> (dom (k + fuel) ce h).2 = Ret d.
Proof.
  revert ce d. induction fuel as [|fuel IH]; intros ce d; [discriminate|].
  replace (k + S fuel) with (S (k + fuel)) by lia.
  destruct (h !! ce) as [this|] eqn:Hb.
  2:{ rewrite (dom_stuck fuel ce h Hb). discriminate. }
  assert (Hcs : forall kids,
            (children_dom fuel (children_of this) h).2 = Ret kids ->
            (children_dom (k + fuel) (children_of this) h).2 = Ret kids).
  { intros kids. apply each_child_mono; try (intros; apply dom_frame).
    exact IH. }
  destruct (_proto this) eqn:Hp.
  - rewrite (dom_element fuel ce h this Hb Hp),
      (dom_element (k + fuel) ce h this Hb Hp). simpl.
    destruct (_isSelfClosing this); [auto|].
    destruct ((children_dom fuel (children_of this) h).2) as [kids| | |];
      try discriminate.
    rewrite (Hcs kids eq_refl). auto.
  - rewrite (dom_fragment fuel ce h this Hb Hp),
      (dom_fragment (k + fuel) ce h this Hb Hp). simpl.
    destruct (_isSelfClosing this); [auto|].
    destruct ((children_dom fuel (children_of this) h).2) as [kids| | |];
      try discriminate.
    rewrite (Hcs kids eq_refl). auto.
Qed.

(** A call with child arguments, field by field. *)
Lemma call_child_args
    (self : nat) (h : heap) (build : Node) (args : list value) :
  h !! self = Some build ->
  forallb child_arg args = true ->
  exists build',
    call self args h = (<[self := build']> h, Ret self) /\
    children_of build' = children_of build ++ flat_children args /\
    _attrs build' = _attrs build /\
    _proto build' = _proto build /\
    _tag build' = _tag build /\
    _isSelfClosing build' = _isSelfClosing build.
Proof.
  intros Hb Hc. exists (forEach parse args build).1.
  destruct (forEach_child_args args build Hc) as [Ea Ec].
  destruct (forEach_parse_frame_holds args build) as (E1 & E2 & E3 & _).
  repeat split; try assumption.
  apply call_ok; [assumption|].
  apply Forall_forall. intros v Hin. apply child_arg_no_nothing.
  rewrite forallb_forall in Hc. apply Hc. apply list_elem_of_In. exact Hin.
Qed.

Lemma merge_attrs_app (m : gmap string prim) (o1 o2 : list obj) :
  merge_attrs m (o1 ++ o2) = merge_attrs (merge_attrs m o1) o2.
Proof. unfold merge_attrs. apply foldl_app. Qed.

Lemma forallb_concat {A} (p : A -> bool) (ls : list (list A)) :
  forallb p (concat ls) = forallb (forallb p) ls.
Proof.
  induction ls as [|l ls IH]; simpl; [reflexivity|].
  rewrite forallb_app, IH. reflexivity.
Qed.

Lemma map_VObj_concat (calls : list (list obj)) :
  concat (map (map VObj) calls) = map VObj (concat calls).
Proof.
  induction calls as [|c rest IH]; simpl; [reflexivity|].
  rewrite IH, map_app. reflexivity.
Qed.

(** ** Where the two renderers agree *)

Lemma sconcat_app (a b : list string) :
  sconcat (a ++ b) = sconcat a +:+ sconcat b.
Proof.
  induction a as [|x a IH]; simpl; [reflexivity|].
  rewrite IH, sapp_assoc. reflexivity.
Qed.

Lemma attr_replace_absent (l : list (string * string)) (name value : string) :
  ~ In name (map fst l) -> attr_replace l name value = None.
Proof.
  induction l as [|[n v] l IH]; simpl; [reflexivity|].
  intros Hn. destruct (String.eqb n name) eqn:E.
  - apply String.eqb_eq in E. tauto.
  - rewrite IH; tauto.
Qed.

Lemma dom_attr_fold (attrs : obj) (l : list (string * string)) :
  NoDup (map fst attrs) ->
  (forall k, In k (map fst attrs) -> ~ In k (map fst l)) ->
  foldl (fun l kv => attr_set l kv.1 (ToString kv.2)) l attrs =
    l ++ map (fun kv => (kv.1, ToString kv.2)) attrs.
Proof.
  revert l. induction attrs as [|[k v] rest IH]; intros l Hnd Hdis; simpl.
  - rewrite app_nil_r. reflexivity.
  - simpl in Hnd. apply NoDup_cons in Hnd as [Hk Hnd].
    unfold attr_set at 2. simpl.
    rewrite attr_replace_absent by (apply Hdis; left; reflexivity).
    rewrite IH; [rewrite <- app_assoc; reflexivity|exact Hnd|].
    intros k' Hin. rewrite map_app, in_app_iff. simpl.
    intros [Hl | [-> | []]].
    + apply (Hdis k'); [right; exact Hin|exact Hl].
    + apply Hk. apply list_elem_of_In. exact Hin.
Qed.

Lemma attrs_text_serialized (attrs : obj) :
  Forall (fun kv => kv.2 <> PNull) attrs ->
  sconcat
    (map (fun kv : string * string =>
            " " +:+ kv.1 +:+ "=" +:+ dquote +:+ kv.2 +:+ dquote)
       (map (fun kv : string * prim => (kv.1, ToString kv.2)) attrs)) =
  attrs_text attrs.
Proof.
  induction 1 as [|[k v] rest Hv _ IH]; simpl; [reflexivity|].
  rewrite IH. unfold attr_text. simpl in *.
  destruct v; try contradiction; rewrite !sapp_assoc; reflexivity.
Qed.

Lemma serialize_appended (void : string -> bool) (d : dom_node) :
  sconcat (map (serialize void) (appended d)) = serialize void d.
Proof. destruct d; simpl; rewrite ?sapp_nil_r; reflexivity. Qed.

(** X14. On a heap of plain Nodes, whose tag and attribute names the host
    takes as they are, the text form of what [dom] builds is the string
    [html] returns, whatever the recursion budget. *)
Theorem renderers_agree_on_plain_nodes (void : string -> bool) (h : heap) :
  (forall ce this, h !! ce = Some this -> plain_node void this) ->
  forall fuel ce,
    res_map (serialize void) (dom fuel ce h).2 = (html fuel ce h).2.
Proof.
  intros Hplain. induction fuel as [|fuel IH]; intros ce; [reflexivity|].
  destruct (h !! ce) as [this|] eqn:Hb.
  2:{ rewrite (html_stuck fuel ce h Hb), (dom_stuck fuel ce h Hb). reflexivity. }
  destruct (Hplain ce this Hb) as (Htag & Hnn & Hnd & Hlit).
  assert (Hcs : res_map (fun kids => sconcat (map (serialize void) kids))
                  (children_dom fuel (children_of this) h).2 =
                (children_html fuel (children_of this) h).2).
  { unfold children_dom, children_html.
    pose proof (each_child_sim (dom fuel) (html fuel) (serialize void)
                  (fun kids => sconcat (map (serialize void) kids))
                  (fun acc d => acc ++ appended d)
                  (fun acc p => acc ++ [createTextNode p])
                  String.append (fun acc p => acc +:+ join_item p) h
                  (fun c => c <> Lit PNull /\ c <> Lit PUndefined)) as Hsim.
    destruct Hsim with (cs := children_of this) (acc := @nil dom_node)
      as [_ E].
    - intros c _. split; [apply dom_frame|].
      rewrite (html_run fuel c h), IH. reflexivity.
    - intros acc r. rewrite map_app, sconcat_app, serialize_appended.
      reflexivity.
    - intros acc p [H1 H2]. rewrite map_app, sconcat_app. simpl.
      rewrite sapp_nil_r. destruct p; try reflexivity; congruence.
    - exact Hlit.
    - simpl in E. rewrite E. reflexivity. }
  destruct (_proto this) eqn:Hp.
  - destruct (Htag eq_refl) as (t & Ht & Hv & _).
    rewrite (dom_element fuel ce h this Hb Hp),
      (html_element fuel ce h this Hb Hp).
    unfold dom_attr_list. rewrite dom_attr_fold by (auto; intros ? ? []).
    unfold tag_value. rewrite Ht. simpl snd. simpl app.
    destruct (_isSelfClosing this).
    + simpl. rewrite Hv, attrs_text_serialized by exact Hnn. reflexivity.
    + rewrite <- Hcs, !res_map_compose. apply res_map_ext. intros kids.
      simpl. rewrite Hv, attrs_text_serialized by exact Hnn.
      reflexivity.
  - rewrite (dom_fragment fuel ce h this Hb Hp),
      (html_fragment fuel ce h this Hb Hp). simpl snd.
    destruct (_isSelfClosing this); [reflexivity|].
    rewrite <- Hcs, res_map_compose. reflexivity.
Qed.

(** * The claims *)

(** C1, where the renderers part.  For [create("input")({disabled: null})]
    [html] writes the attribute bare, [<input disabled></input>], while
    [dom] hands [null] to [setAttribute] and the element carries the value
    ["null"]: no choice of self-closed tags makes the text form of the
    tree equal to the string. *)
Theorem dom_null_attribute_diverges :
  input_disabled [] =
    ([{| _proto := ElementBuilder_prototype; _tag := Some "input";
         _isSelfClosing := false;
         _attrs := Some [("disabled", PNull)];
         _children := None |}],
     Ret ("<input disabled></input>",
          Element "input" [("disabled", "null")] [])) /\
  forall void,
    serialize void (Element "input" [("disabled", "null")] []) <>
      "<input disabled></input>".
Proof.
  split; [reflexivity|].
  intros void. simpl. destruct (void "input"); vm_compute; discriminate.
Qed.

(** C2. A call that returns, returns the handle it was made on, and it
    does return whenever no argument holds [null] or [undefined].  Two
    chained calls leave the heap and the result of one call with both
    argument lists; two attribute objects in a row act as one object
    holding the pairs of both.  [img({src: "a.png"})({alt: "pic"})] and
    [img({src: "a.png", alt: "pic"})] both render to
    [<img src="a.png" alt="pic"/>]. *)
Theorem call_returns_handle_and_chains
    (self : nat) (h : heap) (build : Node) (a1 a2 : list value) :
  h !! self = Some build ->
  (forall h' r, call self a1 h = (h', Ret r) -> r = self) /\
  (Forall (fun v => has_nothing v = false) a1 ->
   (call self a1 h).2 = Ret self) /\
  chain self [a1; a2] h = call self (a1 ++ a2) h /\
  (forall p1 p2 : obj,
     call self [VObj p1; VObj p2] h = call self [VObj (p1 ++ p2)] h) /\
  (img_chained []).2 =
    Ret ("<img src=" +:+ dquote +:+ "a.png" +:+ dquote +:+
         " alt=" +:+ dquote +:+ "pic" +:+ dquote +:+ "/>") /\
  (img_combined []).2 = (img_chained []).2.
Proof.
  intros Hb. split; [|split; [|split; [|split; [|split]]]].
  - intros h' r E. eapply call_returns_self; eauto.
  - intros Hall. rewrite (call_ok _ _ _ _ Hb Hall). reflexivity.
  - rewrite (chain_concat _ _ _ _ Hb). simpl. rewrite app_nil_r. reflexivity.
  - intros p1 p2. rewrite !(call_unfold _ _ _ _ Hb).
    rewrite forEach_cons, forEach_one. unfold bind.
    rewrite (parse_obj p1), forEach_one, !parse_obj. simpl.
    unfold attrs_obj at 1. simpl. rewrite foldl_app. reflexivity.
  - vm_compute. reflexivity.
  - vm_compute. reflexivity.
Qed.

Lemma call_returns_handle_and_chains_witness :
  chain 0 [[VObj [("src", PStr "a.png")]]; [VObj [("alt", PStr "pic")]]]
    [new_ElementBuilder "img" true] =
  call 0 [VObj [("src", PStr "a.png")]; VObj [("alt", PStr "pic")]]
    [new_ElementBuilder "img" true].
Proof.
  apply (call_returns_handle_and_chains 0 [new_ElementBuilder "img" true]
           (new_ElementBuilder "img" true)
           [VObj [("src", PStr "a.png")]] [VObj [("alt", PStr "pic")]]).
  reflexivity.
Defined.

(** C3. Child arguments reach the children in their flattened
    left-to-right order, however they are grouped.  After a call with
    child arguments the children are the former ones followed by the
    literals and handles of the flattened argument list, and every chain
    of calls whose arguments flatten to the same sequence (the arguments
    flat in one call, nested in arrays to any depth, or split over several
    calls) leaves the same heap.  For arguments of any kind, chained calls
    act as one call on the concatenated arguments, and an array acts as
    its elements passed in its place.  [ul([li, li, li])],
    [ul(li)(li)(li)] and [ul(li, li, li)] all render to
    [<ul><li></li><li></li><li></li></ul>]. *)
Theorem children_flattened_in_order
    (self : nat) (h : heap) (build : Node) (args : list value) :
  h !! self = Some build ->
  forallb child_arg args = true ->
  (exists build',
     call self args h = (<[self := build']> h, Ret self) /\
     children_of build' = children_of build ++ flat_children args /\
     _attrs build' = _attrs build /\
     (forall calls,
        flatten_all (concat calls) = flatten_all args ->
        chain self calls h = (<[self := build']> h, Ret self))) /\
  (forall calls, chain self calls h = call self (concat calls) h) /\
  (forall items rest,
     call self (VArr items :: rest) h = call self (items ++ rest) h) /\
  (ul_array []).2 = Ret "<ul><li></li><li></li><li></li></ul>" /\
  (ul_chained []).2 = Ret "<ul><li></li><li></li><li></li></ul>" /\
  (ul_flat []).2 = Ret "<ul><li></li><li></li><li></li></ul>".
Proof.
  intros Hb Hc. split; [|split; [|split; [|repeat split]]].
  - destruct (call_child_args self h build args Hb Hc)
      as (build' & Ecall & Ech & Eat & _).
    exists build'. repeat split; try assumption.
    intros calls Efl. rewrite (chain_concat _ _ _ _ Hb).
    rewrite (call_flatten self (concat calls)), Efl, <- call_flatten.
    exact Ecall.
  - intros calls. eapply chain_concat; eauto.
  - intros items rest.
    rewrite (call_flatten self (VArr items :: rest)),
      (call_flatten self (items ++ rest)).
    unfold flatten_all. rewrite map_app, concat_app. reflexivity.
Qed.

Lemma children_flattened_in_order_witness :
  exists build',
    call 0 [VStr "a"; VHandle 0; VBool true] [new_ElementBuilder "ul" false] =
      (<[0 := build']> [new_ElementBuilder "ul" false], Ret 0) /\
    chain 0 [[VArr [VStr "a"; VArr [VHandle 0]]]; []; [VBool true]]
      [new_ElementBuilder "ul" false] =
      (<[0 := build']> [new_ElementBuilder "ul" false], Ret 0).
Proof.
  destruct (children_flattened_in_order 0 [new_ElementBuilder "ul" false]
              (new_ElementBuilder "ul" false)
              [VStr "a"; VHandle 0; VBool true] eq_refl eq_refl)
    as ((build' & E1 & _ & _ & E2) & _).
  exists build'. split; [exact E1|].
  apply E2. reflexivity.
Defined.

(** C4, as the code has it.  Attribute objects none of whose properties
    is named [__proto__], passed to one handle in one call or over
    several chained calls, leave the attribute mapping equal to the
    left-to-right merge of all of them into the mapping held before (the
    empty one for a new handle); the children are not touched, and a
    name written last reads back with the value written last. *)
Theorem attributes_merge_left_to_right
    (self : nat) (h : heap) (build : Node) (calls : list (list obj)) :
  h !! self = Some build ->
  forallb (forallb no_proto_key) calls = true ->
  exists build',
    chain self (map (map VObj) calls) h = (<[self := build']> h, Ret self) /\
    attr_map build' = merge_attrs (attr_map build) (concat calls) /\
    _children build' = _children build /\
    (_attrs build = None ->
     attr_map build' = merge_attrs ∅ (concat calls)) /\
    (forall k v, merge_attrs (attr_map build) (concat calls ++ [[(k, v)]]) !! k
                 = Some v).
Proof.
  intros Hb Hno. rewrite (chain_concat _ _ _ _ Hb), map_VObj_concat.
  destruct (forEach_attr_objects (concat calls) build)
    as (build' & E & Ec & _ & Em).
  { rewrite forallb_concat. exact Hno. }
  exists build'. split; [|split; [|split; [|split]]].
  - rewrite (call_unfold _ _ _ _ Hb), E. reflexivity.
  - exact Em.
  - exact Ec.
  - intros Hn. rewrite Em. unfold attr_map, attrs_of. rewrite Hn. reflexivity.
  - intros k v. rewrite merge_attrs_app. simpl. apply lookup_insert_eq.
Qed.

Lemma attributes_merge_left_to_right_witness :
  exists build',
    chain 0 (map (map VObj)
               [[[("id", PStr "a")]; [("class", PStr "b")]];
                [[("id", PStr "c")]]])
      [new_ElementBuilder "div" false]
      = (<[0 := build']> [new_ElementBuilder "div" false], Ret 0) /\
    attr_map build' =
      merge_attrs (attr_map (new_ElementBuilder "div" false))
        (concat [[[("id", PStr "a")]; [("class", PStr "b")]];
                 [[("id", PStr "c")]]]).
Proof.
  destruct (attributes_merge_left_to_right 0 [new_ElementBuilder "div" false]
              (new_ElementBuilder "div" false)
              [[[("id", PStr "a")]; [("class", PStr "b")]];
               [[("id", PStr "c")]]] eq_refl eq_refl)
    as (build' & E & Em & _).
  exists build'. split; assumption.
Defined.

(** C4, as the claim words it, fails on a property named [__proto__]:
    [p({"__proto__": "x"})] returns, but the assignment
    [this._attrs["__proto__"] = "x"] runs the setter that the attribute
    object inherits and stores nothing, so the attribute mapping is not
    the merge. *)
Lemma proto_attribute_not_merged :
  ~ (exists build',
       chain 0 [[VObj [("__proto__", PStr "x")]]]
         [new_ElementBuilder "p" false]
         = (<[0 := build']> [new_ElementBuilder "p" false], Ret 0) /\
       attr_map build' =
         merge_attrs (attr_map (new_ElementBuilder "p" false))
           [[("__proto__", PStr "x")]]).
Proof.
  intros (build' & E & Em).
  vm_compute in E. injection E as <-.
  apply (f_equal (fun m => m !! "__proto__")) in Em.
  vm_compute in Em. discriminate Em.
Qed.

(** C5. When an argument is [null] or [undefined], or holds one at any
    depth, the call throws the "Bad argument" error.  The heap it leaves
    is the one a call with exactly the flattened arguments ahead of the
    first such value would leave, so what came before stays applied and
    nothing after it is processed: the arguments that follow make no
    difference. *)
Theorem nothing_argument_throws
    (self : nat) (h : heap) (build : Node) (args : list value) :
  h !! self = Some build ->
  existsb has_nothing args = true ->
  exists before x after h',
    flatten_all args = before ++ x :: after /\
    is_nothing x = true /\
    Forall (fun v => has_nothing v = false) before /\
    call self before h = (h', Ret self) /\
    call self args h = (h', Throw (bad_argument x)) /\
    (forall more, call self (args ++ more) h = (h', Throw (bad_argument x))).
Proof.
  intros Hb Hex. rewrite has_nothing_flatten_all in Hex.
  destruct (existsb_split is_nothing _ Hex)
    as (before & x & after & Efl & Hx & Hbefore).
  assert (Hclean : Forall (fun v => has_nothing v = false) before).
  { pose proof (flatten_all_leaves args) as Hl. rewrite Efl in Hl.
    apply Forall_app in Hl as [Hl _].
    rewrite Forall_forall in *. intros v Hin.
    rewrite (Hl v Hin). apply Hbefore. exact Hin. }
  pose proof (call_ok self before h build Hb Hclean) as Ecall.
  set (h' := <[self := (forEach parse before build).1]> h) in *.
  assert (Hb' : h' !! self = Some (forEach parse before build).1)
    by (eapply heap_lookup_written; eauto).
  assert (Hthrow : forall rest,
            call self (before ++ x :: rest) h = (h', Throw (bad_argument x))).
  { intros rest. rewrite (call_app _ _ _ _ _ Hb). unfold bind. rewrite Ecall.
    eapply call_nothing_first; eauto. }
  exists before, x, after, h'. repeat split; try assumption.
  - rewrite call_flatten, Efl. apply Hthrow.
  - intros more. rewrite call_flatten. unfold flatten_all.
    rewrite map_app, concat_app. fold (flatten_all args). rewrite Efl.
    rewrite <- app_assoc. simpl. apply Hthrow.
Qed.

Lemma nothing_argument_throws_witness :
  exists before x after h',
    flatten_all [VStr "a"; VArr [VObj [("id", PStr "x")]; VArr [VNull]];
                 VStr "b"] = before ++ x :: after /\
    call 0 [VStr "a"; VArr [VObj [("id", PStr "x")]; VArr [VNull]]; VStr "b"]
      [new_ElementBuilder "div" false] = (h', Throw (bad_argument x)).
Proof.
  destruct (nothing_argument_throws 0 [new_ElementBuilder "div" false]
              (new_ElementBuilder "div" false)
              [VStr "a"; VArr [VObj [("id", PStr "x")]; VArr [VNull]]; VStr "b"]
              eq_refl eq_refl)
    as (before & x & after & h' & E1 & _ & _ & _ & E2 & _).
  exists before, x, after, h'. split; assumption.
Defined.

(** C6. An element with tag [t] renders to [<t], then for each stored
    attribute in order a space and its name, followed by [="value"] unless
    the value is [null], then [/>] when self-closing, and otherwise [>],
    the text of its children ([children_text]: each literal's string form
    and each handle's own rendering, in order) and [</t>].  On a heap
    without cycles the rendering returns.  After
    [registry.tags("body", "br/")], [registry.body(registry.br())] renders
    to [<body><br/></body>]. *)
Theorem html_shape (fuel ce : nat) (h : heap) (this : Node) (t : string) :
  h !! ce = Some this ->
  _proto this = ElementBuilder_prototype ->
  _tag this = Some t ->
  html (S fuel) ce h =
    (h,
     if _isSelfClosing this
     then Ret ("<" +:+ t +:+ attrs_text (attrs_of this) +:+ "/>")
     else res_map
            (fun inner =>
               "<" +:+ t +:+ attrs_text (attrs_of this) +:+ ">" +:+
               inner +:+ "</" +:+ t +:+ ">")
            (children_text (fun c => (html fuel c h).2)
               (children_of this))) /\
  (forall k v rest,
     attrs_text ((k, v) :: rest) =
       " " +:+ k +:+
       match v with
       | PNull => ""
       | _ => "=" +:+ dquote +:+ ToString v +:+ dquote
       end +:+
       attrs_text rest) /\
  (forall rank, ranked h rank -> rank ce <= fuel ->
     exists s, html (S fuel) ce h = (h, Ret s)) /\
  (body_br []).2 = Ret "<body><br/></body>".
Proof.
  intros Hb Hp Ht. split; [|split; [|split]].
  - rewrite (html_element fuel ce h this Hb Hp), children_html_text.
    unfold tag_value. rewrite Ht. reflexivity.
  - intros k v rest. simpl. unfold attr_text. simpl.
    rewrite !sapp_assoc. destruct v; reflexivity.
  - intros rank Hrk Hle. apply (html_total h rank Hrk); [eauto|lia].
  - reflexivity.
Qed.

Lemma html_shape_witness :
  html 2 0 paragraph_heap =
    (paragraph_heap,
     Ret ("<p id=" +:+ dquote +:+ "x" +:+ dquote +:+ ">a<br/></p>")).
Proof.
  exact (proj1 (html_shape 1 0 paragraph_heap _ "p"
                  eq_refl eq_refl eq_refl)).
Defined.

(** C7. A self-closing element takes child arguments without error, and
    whatever children it was given, [html] returns the open tag alone,
    ended by [/>], with no inner content and no closing tag, and [dom]
    returns the element without any child node. *)
Theorem self_closing_drops_children
    (fuel self : nat) (h : heap) (this : Node) (args : list value) :
  h !! self = Some this ->
  _proto this = ElementBuilder_prototype ->
  _isSelfClosing this = true ->
  forallb child_arg args = true ->
  exists this',
    call self args h = (<[self := this']> h, Ret self) /\
    children_of this' = children_of this ++ flat_children args /\
    html (S fuel) self (<[self := this']> h) =
      (<[self := this']> h,
       Ret ("<" +:+ join_item (tag_value this) +:+
            attrs_text (attrs_of this) +:+ "/>")) /\
    dom (S fuel) self (<[self := this']> h) =
      (<[self := this']> h,
       Ret (Element (ToString (tag_value this))
              (dom_attr_list (attrs_of this)) [])).
Proof.
  intros Hb Hp Hsc Hc.
  destruct (call_child_args self h this args Hb Hc)
    as (this' & Ecall & Ech & Eat & Epr & Etg & Esc).
  exists this'. split; [exact Ecall|]. split; [exact Ech|].
  pose proof (heap_lookup_written h self this this' Hb) as Hb'.
  assert (Hp' : _proto this' = ElementBuilder_prototype) by congruence.
  rewrite (html_element fuel self _ this' Hb' Hp').
  rewrite (dom_element fuel self _ this' Hb' Hp').
  unfold tag_value, attrs_of. rewrite Esc, Hsc, Etg, Eat. split; reflexivity.
Qed.

Lemma self_closing_drops_children_witness :
  exists this',
    call 0 [VStr "x"; VArr [VBool true]] [new_ElementBuilder "br" true] =
      (<[0 := this']> [new_ElementBuilder "br" true], Ret 0) /\
    html 1 0 (<[0 := this']> [new_ElementBuilder "br" true]) =
      (<[0 := this']> [new_ElementBuilder "br" true], Ret "<br/>").
Proof.
  destruct (self_closing_drops_children 0 0 [new_ElementBuilder "br" true]
              (new_ElementBuilder "br" true) [VStr "x"; VArr [VBool true]]
              eq_refl eq_refl eq_refl eq_refl)
    as (this' & E1 & _ & E2 & _).
  exists this'. split; assumption.
Defined.

(** C8. A fragment's [html] is the text of its children and nothing
    else ([children_text]: each literal's string form and each handle's
    rendering, in order, with no delimiter of the fragment's own); its
    [dom] is a document fragment holding the children's nodes
    ([children_nodes]), a node that has no tag and carries no attribute,
    whatever attributes the fragment was given.  Calls on a fragment keep
    it a fragment that is not self-closing. *)
Theorem fragment_renders_children_only
    (fuel ce : nat) (h : heap) (this : Node) :
  h !! ce = Some this ->
  _proto this = FragmentBuilder_prototype ->
  _isSelfClosing this = false ->
  html (S fuel) ce h =
    (h, children_text (fun c => (html fuel c h).2) (children_of this)) /\
  dom (S fuel) ce h =
    (h, res_map DocumentFragment
          (children_nodes (fun c => (dom fuel c h).2) (children_of this))) /\
  (forall args,
     _proto (forEach parse args this).1 = FragmentBuilder_prototype /\
     _isSelfClosing (forEach parse args this).1 = false).
Proof.
  intros Hb Hp Hsc. split; [|split].
  - rewrite (html_fragment fuel ce h this Hb Hp), Hsc, children_html_text.
    reflexivity.
  - rewrite (dom_fragment fuel ce h this Hb Hp), Hsc, children_dom_nodes.
    reflexivity.
  - intros args.
    destruct (forEach_parse_frame_holds args this) as (E1 & _ & E3 & _).
    split; congruence.
Qed.

Lemma fragment_renders_children_only_witness :
  html 2 0 fragment_heap = (fragment_heap, Ret "a<li></li><li></li>b") /\
  dom 2 0 fragment_heap =
    (fragment_heap,
     Ret (DocumentFragment
            [Text "a"; Element "li" [] []; Element "li" [] []; Text "b"])).
Proof.
  destruct (fragment_renders_children_only 1 0 fragment_heap _
              eq_refl eq_refl eq_refl) as (E1 & E2 & _).
  split; [exact E1 | exact E2].
Defined.

(** C9. Reading a registered accessor twice, or [frag] twice, allocates
    two new Nodes behind two different handles and leaves the existing
    Nodes alone.  A call on either of the two leaves the other Node and
    what it renders to, by [html] and by [dom], unchanged; more generally
    a call on one handle cannot change the rendering of a handle that
    does not reach it. *)
Theorem accessors_return_fresh_handles
    (reg : registry) (name : string) (sc : bool) (h : heap) :
  reg !! name = Some sc ->
  (v1 ← getter reg name; v2 ← getter reg name; mret (v1, v2)) h =
    (h ++ [new_ElementBuilder name sc; new_ElementBuilder name sc],
     Ret (VHandle (length h), VHandle (S (length h)))) /\
  (exists n1 n2,
     (v1 ← frag reg; v2 ← frag reg; mret (v1, v2)) h =
       (h ++ [n1; n2], Ret (VHandle (length h), VHandle (S (length h)))) /\
     _children n1 = None /\ _children n2 = None /\
     _attrs n1 = None /\ _attrs n2 = None /\
     (reg !! "frag" = None ->
      n1 = new_FragmentBuilder /\ n2 = new_FragmentBuilder)) /\
  (forall n1 n2 args fuel,
     _children n1 = None -> _children n2 = None ->
     let a := length h in
     let b := S (length h) in
     let g := h ++ [n1; n2] in
     a <> b /\
     (call a args g).1 !! b = Some n2 /\
     (html fuel b (call a args g).1).2 = (html fuel b g).2 /\
     (dom fuel b (call a args g).1).2 = (dom fuel b g).2 /\
     (call b args g).1 !! a = Some n1 /\
     (html fuel a (call b args g).1).2 = (html fuel a g).2 /\
     (dom fuel a (call b args g).1).2 = (dom fuel a g).2) /\
  (forall g x y args fuel,
     ~ reaches g y x ->
     (html fuel y (call x args g).1).2 = (html fuel y g).2 /\
     (dom fuel y (call x args g).1).2 = (dom fuel y g).2).
Proof.
  intros E. split; [|split; [|split]].
  - unfold mbind, M_bind, mret, M_ret, bind, ret.
    rewrite (getter_run _ _ _ _ E), (getter_run _ _ _ _ E).
    rewrite <- app_assoc, length_app. simpl.
    replace (length h + 1) with (S (length h)) by lia. reflexivity.
  - destruct (frag_run reg h) as (n1 & E1 & C1 & A1 & F1).
    destruct (frag_run reg (h ++ [n1])) as (n2 & E2 & C2 & A2 & F2).
    exists n1, n2. unfold mbind, M_bind, mret, M_ret, bind, ret.
    rewrite E1, E2, <- app_assoc, length_app. simpl.
    replace (length h + 1) with (S (length h)) by lia.
    repeat split; auto.
  - intros n1 n2 args fuel C1 C2 a b g.
    assert (Ha : g !! a = Some n1).
    { unfold g, a. rewrite lookup_app_r by lia.
      replace (length h - length h) with 0 by lia. reflexivity. }
    assert (Hb : g !! b = Some n2).
    { unfold g, b. rewrite lookup_app_r by lia.
      replace (S (length h) - length h) with 1 by lia. reflexivity. }
    assert (Hne : a <> b) by (unfold a, b; lia).
    assert (Hba : ~ reaches g b a).
    { intros Hr. apply (childless_reaches g b a n2 Hb C2) in Hr. lia. }
    assert (Hab : ~ reaches g a b).
    { intros Hr. apply (childless_reaches g a b n1 Ha C1) in Hr. lia. }
    destruct (call_keeps_rendering g a b args fuel Hba) as [H1 H2].
    destruct (call_keeps_rendering g b a args fuel Hab) as [H3 H4].
    repeat split; try assumption.
    + rewrite call_other; assumption.
    + rewrite call_other; auto.
  - intros g x y args fuel Hnr. apply call_keeps_rendering. exact Hnr.
Qed.

Lemma accessors_return_fresh_handles_witness :
  (v1 ← getter (JSML ["div"]) "div"; v2 ← getter (JSML ["div"]) "div";
   mret (v1, v2)) [] =
    ([new_ElementBuilder "div" false; new_ElementBuilder "div" false],
     Ret (VHandle 0, VHandle 1)).
Proof.
  apply (proj1 (accessors_return_fresh_handles (JSML ["div"]) "div" false []
                  eq_refl)).
Defined.

(** C10. [html] and [dom] leave every Node of the heap as it was: tag,
    self-closing flag, attributes and children are those from before the
    rendering.  So a second [html] returns the string the first returned,
    and so does an [html] that follows a [dom] or that is given a larger
    recursion budget. *)
Theorem rendering_reads_only (fuel ce : nat) (h : heap) :
  (html fuel ce h).1 = h /\
  (dom fuel ce h).1 = h /\
  (forall s k, (html fuel ce h).2 = Ret s ->
     (s1 ← html fuel ce; s2 ← html (k + fuel) ce; mret (s1, s2)) h
       = (h, Ret (s, s))) /\
  (forall d, (dom fuel ce h).2 = Ret d ->
     (dom fuel ce ≫= fun _ => html fuel ce) h = html fuel ce h).
Proof.
  split; [apply html_frame|]. split; [apply dom_frame|]. split.
  - intros s k Es. unfold mbind, M_bind, mret, M_ret, bind, ret.
    rewrite (html_run fuel ce h), Es. simpl.
    rewrite (html_run (k + fuel) ce h), (html_fuel_mono h fuel k ce s Es).
    reflexivity.
  - intros d Ed. unfold mbind, M_bind, bind.
    rewrite (dom_run fuel ce h), Ed. reflexivity.
Qed.

Lemma rendering_reads_only_witness :
  (s1 ← html 1 0; s2 ← html (2 + 1) 0; mret (s1, s2)) [checkbox] =
    ([checkbox],
     Ret ("<input type=" +:+ dquote +:+ "checkbox" +:+ dquote +:+ " checked/>",
          "<input type=" +:+ dquote +:+ "checkbox" +:+ dquote +:+ " checked/>")).
Proof.
  apply (proj1 (proj2 (proj2 (rendering_reads_only 1 0 [checkbox])))).
  reflexivity.
Defined.

(** * Further properties of the code *)

(** ** Tag specifications *)

Lemma slength_app (a b : string) :
  String.length (a +:+ b) = String.length a + String.length b.
Proof.
  induction a as [|c a IH]; [reflexivity|].
  change (String c a +:+ b) with (String c (a +:+ b)). simpl. rewrite IH.
  reflexivity.
Qed.

Lemma substring_last_slash (t : string) :
  substring (String.length t) 1 (t +:+ "/") = "/".
Proof.
  induction t as [|c t IH]; [reflexivity|].
  change (String c t +:+ "/") with (String c (t +:+ "/")). simpl. exact IH.
Qed.

Lemma substring_prefix (t rest : string) :
  substring 0 (String.length t) (t +:+ rest) = t.
Proof.
  induction t as [|c t IH].
  - destruct rest; reflexivity.
  - change (String c t +:+ rest) with (String c (t +:+ rest)). simpl.
    rewrite IH. reflexivity.
Qed.

Lemma parseTag_slash (t : string) : _parseTag (t +:+ "/") = (t, true).
Proof.
  unfold _parseTag. rewrite slength_app. simpl String.length.
  replace (String.length t + 1 - 1) with (String.length t) by lia.
  rewrite substring_last_slash, substring_prefix. reflexivity.
Qed.

Lemma last_slash_split_cons (rest : string) (c : ascii) :
  substring (String.length rest) 1 (String c rest) = "/" ->
  String c rest = substring 0 (String.length rest) (String c rest) +:+ "/".
Proof.
  revert c. induction rest as [|d r IH]; intros c E.
  - simpl in E. injection E as ->. reflexivity.
  - change (substring (String.length (String d r)) 1 (String c (String d r)))
      with (substring (String.length r) 1 (String d r)) in E.
    change (substring 0 (String.length (String d r)) (String c (String d r)))
      with (String c (substring 0 (String.length r) (String d r))).
    change (String c ?x +:+ "/") with (String c (x +:+ "/")).
    f_equal. apply IH. exact E.
Qed.

Lemma last_slash_split (tag : string) :
  substring (String.length tag - 1) 1 tag = "/" ->
  tag = substring 0 (String.length tag - 1) tag +:+ "/".
Proof.
  destruct tag as [|c rest]; [discriminate|].
  replace (String.length (String c rest) - 1) with (String.length rest)
    by (simpl; lia).
  apply last_slash_split_cons.
Qed.

Lemma parseTag_rebuild (tag : string) :
  tag = (_parseTag tag).1 +:+ (if (_parseTag tag).2 then "/" else "").
Proof.
  unfold _parseTag.
  destruct (String.eqb (substring (String.length tag - 1) 1 tag) "/") eqn:E.
  - apply String.eqb_eq, last_slash_split in E. exact E.
  - simpl. rewrite sapp_nil_r. reflexivity.
Qed.

(** X1. A tag specification that ends in a slash names a self-closing tag
    and loses exactly that one slash; any other specification, the empty
    one included, is a normal tag and is kept whole.  The specification
    can be rebuilt from what [_parseTag] returns. *)
Theorem parseTag_trailing_slash (tag : string) :
  (forall t, _parseTag (t +:+ "/") = (t, true)) /\
  ((forall t, tag <> t +:+ "/") -> _parseTag tag = (tag, false)) /\
  tag = (_parseTag tag).1 +:+ (if (_parseTag tag).2 then "/" else "").
Proof.
  split; [exact parseTag_slash|]. split; [|apply parseTag_rebuild].
  intros Hno. pose proof (parseTag_rebuild tag) as E.
  destruct (_parseTag tag) as [t [|]]; simpl in E.
  - destruct (Hno t E).
  - rewrite sapp_nil_r in E. subst t. reflexivity.
Qed.

Lemma parseTag_trailing_slash_witness : _parseTag "body" = ("body", false).
Proof.
  apply (proj1 (proj2 (parseTag_trailing_slash "body"))).
  intros t E.
  destruct t as [|a [|b [|c [|d [|e t]]]]]; cbv [String.append] in E;
    discriminate E.
Defined.

(** ** The registry *)

Lemma tags_app (a b : list string) (reg : registry) :
  tags (a ++ b) reg = tags b (tags a reg).
Proof. unfold tags. apply foldl_app. Qed.

Lemma tags_other (names : list string) (reg : registry) (name : string) :
  (forall tag, In tag names -> (_parseTag tag).1 <> name) ->
  tags names reg !! name = reg !! name.
Proof.
  revert reg. induction names as [|tag rest IH]; intros reg Hno;
    [reflexivity|].
  change (tags (tag :: rest) reg)
    with (tags rest (<[(_parseTag tag).1 := (_parseTag tag).2]> reg)).
  rewrite IH by (intros t Hin; apply Hno; right; exact Hin).
  apply lookup_insert_ne. apply Hno. left. reflexivity.
Qed.

Lemma tags_intact (names : list string) (reg : registry) :
  methods_intact reg -> forallb benign names = true ->
  methods_intact (tags names reg).
Proof.
  intros Hreg Hnames. unfold methods_intact in *.
  rewrite Forall_forall in *. intros m Hm.
  rewrite tags_other; [apply Hreg; exact Hm|].
  intros tag Hin E. rewrite forallb_forall in Hnames.
  specialize (Hnames tag Hin). unfold benign in Hnames.
  rewrite forallb_forall in Hnames.
  apply list_elem_of_In in Hm. specialize (Hnames m Hm).
  rewrite E, String.eqb_refl in Hnames. discriminate.
Qed.

(** X2. On a registry whose methods are in place, and for specifications
    that name none of them, [tags] defines one getter per specification,
    under the name with the slash removed, and leaves the methods in
    place.  A specification given later replaces the getter an earlier
    one defined under the same name, so the last one decides whether the
    tag is self-closing; names that no specification mentions keep what
    they had; registering in two steps is registering at once. *)
Theorem tags_last_registration_wins
    (names : list string) (reg : registry) (name : string) :
  methods_intact reg ->
  forallb benign names = true ->
  methods_intact (tags names reg) /\
  (forall tag later,
     forallb benign (tag :: later) = true ->
     (forall t, In t later -> (_parseTag t).1 <> (_parseTag tag).1) ->
     tags (names ++ tag :: later) reg !! (_parseTag tag).1
       = Some (_parseTag tag).2) /\
  ((forall tag, In tag names -> (_parseTag tag).1 <> name) ->
   tags names reg !! name = reg !! name) /\
  (forall more,
     forallb benign more = true ->
     tags (names ++ more) reg = tags more (tags names reg)).
Proof.
  intros Hreg Hnames. split; [|split; [|split]].
  - apply tags_intact; assumption.
  - intros tag later _ Hlater. rewrite tags_app.
    change (tags (tag :: later) (tags names reg))
      with (tags later (<[(_parseTag tag).1 := (_parseTag tag).2]>
                          (tags names reg))).
    rewrite (tags_other later _ _ Hlater). apply lookup_insert_eq.
  - apply tags_other.
  - intros more _. apply tags_app.
Qed.

Lemma tags_last_registration_wins_witness :
  tags (["br"; "p"] ++ "br/" :: ["div"]) ∅ !! "br" = Some true.
Proof.
  assert (H0 : methods_intact (∅ : gmap string bool))
    by (repeat constructor).
  destruct (tags_last_registration_wins ["br"; "p"] ∅ "br" H0 eq_refl)
    as (_ & Hlast & _).
  apply (Hlast "br/" ["div"] eq_refl).
  intros t [<- | []]. vm_compute. discriminate.
Defined.

(** X3. On a registry whose methods are in place, [create] allocates one
    new element for the parsed specification and touches no existing
    Node; the getter that [tags] defines for the same specification
    allocates the very same Node, so [create] differs from an accessor
    only in not registering anything. *)
Theorem create_matches_accessor (tag : string) (reg : registry) (h : heap) :
  methods_intact reg ->
  create tag h =
    (h ++ [new_ElementBuilder (_parseTag tag).1 (_parseTag tag).2],
     Ret (length h)) /\
  getter (tags [tag] reg) (_parseTag tag).1 h =
    ((create tag h).1, res_map VHandle (create tag h).2) /\
  (forall ce, ce < length h -> (create tag h).1 !! ce = h !! ce).
Proof.
  intros _. split; [reflexivity|]. split.
  - unfold getter.
    change (tags [tag] reg)
      with (<[(_parseTag tag).1 := (_parseTag tag).2]> reg).
    rewrite lookup_insert_eq. reflexivity.
  - intros ce Hlt. simpl. apply lookup_app_l. exact Hlt.
Qed.

(** X4. An element without a tag comes from exactly two specifications,
    the empty one and the lone slash.  Its [html] leaves the name out of
    the open tag but closes with [</null>], and its [dom] is an element
    named [null]. *)
Theorem tagless_element_rendering
    (fuel ce : nat) (h : heap) (this : Node) :
  h !! ce = Some this ->
  _proto this = ElementBuilder_prototype ->
  _tag this = None ->
  html (S fuel) ce h =
    (h,
     if _isSelfClosing this
     then Ret ("<" +:+ attrs_text (attrs_of this) +:+ "/>")
     else res_map
            (fun inner =>
               "<" +:+ attrs_text (attrs_of this) +:+ ">" +:+ inner +:+
               "</null>")
            (children_html fuel (children_of this) h).2) /\
  dom (S fuel) ce h =
    (h,
     if _isSelfClosing this
     then Ret (Element "null" (dom_attr_list (attrs_of this)) [])
     else res_map (Element "null" (dom_attr_list (attrs_of this)))
            (children_dom fuel (children_of this) h).2) /\
  (forall tag,
     _tag (new_ElementBuilder (_parseTag tag).1 (_parseTag tag).2) = None
     <-> tag = "" \/ tag = "/").
Proof.
  intros Hb Hp Ht. split; [|split].
  - rewrite (html_element fuel ce h this Hb Hp). unfold tag_value.
    rewrite Ht. reflexivity.
  - rewrite (dom_element fuel ce h this Hb Hp). unfold tag_value.
    rewrite Ht. reflexivity.
  - intros tag. simpl. split.
    + intros E. pose proof (parseTag_rebuild tag) as R.
      destruct (String.eqb (_parseTag tag).1 "") eqn:Ee; [|discriminate].
      apply String.eqb_eq in Ee. rewrite Ee in R.
      destruct (_parseTag tag).2; [right | left]; exact R.
    + intros [-> | ->]; reflexivity.
Qed.

Lemma tagless_element_rendering_witness :
  html 1 0 [new_ElementBuilder "" false] =
    ([new_ElementBuilder "" false], Ret "<></null>") /\
  dom 1 0 [new_ElementBuilder "" false] =
    ([new_ElementBuilder "" false], Ret (Element "null" [] [])).
Proof.
  destruct (tagless_element_rendering 0 0 [new_ElementBuilder "" false]
              (new_ElementBuilder "" false) eq_refl eq_refl eq_refl)
    as (E1 & E2 & _).
  split; assumption.
Defined.

(** ** What a call leaves alone *)

Lemma call_missing (self : nat) (args : list value) (h : heap) :
  h !! self = None -> call self args h = (h, Stuck).
Proof. intros E. unfold call. rewrite E. reflexivity. Qed.

Lemma call_heap (self : nat) (args : list value) (h : heap) (build : Node) :
  h !! self = Some build ->
  (call self args h).1 = <[self := (forEach parse args build).1]> h.
Proof. intros Hb. rewrite (call_unfold _ _ _ _ Hb). reflexivity. Qed.

(** X5. A call writes to the Node of its own handle and to nothing else:
    the heap keeps its size, every other Node, those of handles passed as
    arguments included, stays as it was, and the receiver keeps its
    prototype, tag and self-closing flag and only gains children behind
    the ones it had.  This holds also for a call that throws. *)
Theorem call_writes_receiver_only
    (self : nat) (args : list value) (h : heap) (build : Node) :
  h !! self = Some build ->
  length (call self args h).1 = length h /\
  (forall ce, ce <> self -> (call self args h).1 !! ce = h !! ce) /\
  exists build',
    (call self args h).1 !! self = Some build' /\
    _proto build' = _proto build /\
    _tag build' = _tag build /\
    _isSelfClosing build' = _isSelfClosing build /\
    children_of build `prefix_of` children_of build'.
Proof.
  intros Hb. split; [|split].
  - rewrite (call_heap _ _ _ _ Hb). apply length_insert.
  - intros ce Hne. apply call_other. congruence.
  - exists (forEach parse args build).1.
    destruct (forEach_parse_frame_holds args build) as (E1 & E2 & E3 & E4 & _).
    rewrite (call_heap _ _ _ _ Hb).
    split; [eapply heap_lookup_written; eauto|]. auto.
Qed.

Lemma call_writes_receiver_only_witness :
  (call 0 [VHandle 1; VNull] [new_ElementBuilder "ul" false;
                              new_ElementBuilder "li" false]).1 !! 1
    = Some (new_ElementBuilder "li" false).
Proof.
  apply (proj1 (proj2 (call_writes_receiver_only 0 [VHandle 1; VNull]
                         [new_ElementBuilder "ul" false;
                          new_ElementBuilder "li" false]
                         (new_ElementBuilder "ul" false) eq_refl))).
  lia.
Defined.

(** X6. Calls on two different handles do not interfere: made in either
    order they leave the same heap, and what each call returns or throws
    does not depend on whether the other was made first.  So a child may
    be filled in after it was handed to its parent. *)
Theorem calls_on_different_handles_commute
    (a b : nat) (args1 args2 : list value) (h : heap) :
  a <> b ->
  (call b args2 (call a args1 h).1).1 = (call a args1 (call b args2 h).1).1 /\
  (call b args2 (call a args1 h).1).2 = (call b args2 h).2 /\
  (call a args1 (call b args2 h).1).2 = (call a args1 h).2.
Proof.
  intros Hne.
  assert (Hab : (call a args1 h).1 !! b = h !! b) by (apply call_other; auto).
  assert (Hba : (call b args2 h).1 !! a = h !! a) by (apply call_other; auto).
  destruct (h !! a) as [na|] eqn:Ea; destruct (h !! b) as [nb|] eqn:Eb.
  - rewrite (call_unfold b args2 _ nb Hab), (call_unfold a args1 _ na Hba).
    rewrite (call_unfold b args2 h nb Eb), (call_unfold a args1 h na Ea).
    simpl. split; [|split; reflexivity].
    apply list_insert_insert_ne. auto.
  - rewrite (call_missing b args2 _ Hab), (call_missing b args2 h Eb).
    simpl. split; [|split]; reflexivity.
  - rewrite (call_missing a args1 h Ea). simpl.
    rewrite (call_missing a args1 _ Hba). split; [|split]; reflexivity.
  - rewrite (call_missing a args1 h Ea), (call_missing b args2 h Eb). simpl.
    rewrite (call_missing a args1 h Ea), (call_missing b args2 h Eb).
    split; [|split]; reflexivity.
Qed.

Lemma calls_on_different_handles_commute_witness :
  (call 1 [VStr "x"]
     (call 0 [VHandle 1] [new_ElementBuilder "ul" false;
                          new_ElementBuilder "li" false]).1).1 =
  (call 0 [VHandle 1]
     (call 1 [VStr "x"] [new_ElementBuilder "ul" false;
                         new_ElementBuilder "li" false]).1).1.
Proof.
  apply (calls_on_different_handles_commute 0 1 [VHandle 1] [VStr "x"]).
  lia.
Defined.

(** ** Attributes and children in one argument list *)







(** ** Arguments that add nothing *)

Lemma render_same_view (h h' : heap) :
  (forall ce,
     match h !! ce, h' !! ce with
     | Some n, Some n' => same_view n n'
     | None, None => True
     | _, _ => False
     end) ->
  forall fuel ce,
    (html fuel ce h').2 = (html fuel ce h).2 /\
    (dom fuel ce h').2 = (dom fuel ce h).2.
Proof.
  intros Hview. induction fuel as [|fuel IH]; intros ce; [split; reflexivity|].
  specialize (Hview ce).
  destruct (h !! ce) as [n|] eqn:E, (h' !! ce) as [n'|] eqn:E';
    try contradiction.
  2:{ rewrite (html_stuck _ _ _ E), (html_stuck _ _ _ E'),
        (dom_stuck _ _ _ E), (dom_stuck _ _ _ E'). split; reflexivity. }
  destruct Hview as (Vp & Vt & Vs & Va & Vc).
  assert (Hh : (children_html fuel (children_of n') h').2 =
               (children_html fuel (children_of n) h).2).
  { rewrite <- Vc. apply each_child_heaps; try (intros; apply html_frame).
    intros c _. apply IH. }
  assert (Hd : (children_dom fuel (children_of n') h').2 =
               (children_dom fuel (children_of n) h).2).
  { rewrite <- Vc. apply each_child_heaps; try (intros; apply dom_frame).
    intros c _. apply IH. }
  destruct (_proto n) eqn:Hp; symmetry in Vp.
  - rewrite (html_element fuel ce h n E Hp), (dom_element fuel ce h n E Hp),
      (html_element fuel ce h' n' E' Vp), (dom_element fuel ce h' n' E' Vp).
    unfold tag_value. simpl. rewrite <- Vt, <- Vs, <- Va, Hh, Hd.
    split; reflexivity.
  - rewrite (html_fragment fuel ce h n E Hp), (dom_fragment fuel ce h n E Hp),
      (html_fragment fuel ce h' n' E' Vp), (dom_fragment fuel ce h' n' E' Vp).
    simpl. rewrite <- Vs, Hh, Hd. split; reflexivity.
Qed.

Lemma same_view_refl (n : Node) : same_view n n.
Proof. unfold same_view. auto. Qed.

(** X8. A call whose arguments flatten to nothing (no argument at all,
    an empty array, arrays of empty arrays) leaves the heap as it was and
    returns the handle.  A call with an empty attribute object returns the
    handle too, and although it creates the attribute object, no handle
    renders differently afterwards, by [html] or by [dom]. *)
Theorem empty_arguments_change_nothing
    (self : nat) (args : list value) (h : heap) (build : Node) :
  h !! self = Some build ->
  (flatten_all args = [] -> call self args h = (h, Ret self)) /\
  (call self [VObj []] h).2 = Ret self /\
  (forall fuel ce,
     (html fuel ce (call self [VObj []] h).1).2 = (html fuel ce h).2 /\
     (dom fuel ce (call self [VObj []] h).1).2 = (dom fuel ce h).2).
Proof.
  intros Hb. split; [|split].
  - intros Hfl. rewrite call_flatten, Hfl. eapply call_nil; eauto.
  - rewrite (call_unfold _ _ _ _ Hb), forEach_one, parse_obj. reflexivity.
  - apply render_same_view. intros ce.
    rewrite (call_heap _ _ _ _ Hb), forEach_one, parse_obj. simpl.
    destruct (decide (ce = self)) as [->|Hne].
    + rewrite Hb, (heap_lookup_written _ _ _ _ Hb).
      unfold same_view. simpl. repeat split.
      unfold attrs_of at 2. simpl. symmetry. apply own_attrs_obj.
    + rewrite list_lookup_insert_ne by congruence.
      destruct (h !! ce); [apply same_view_refl | exact I].
Qed.

Lemma empty_arguments_change_nothing_witness :
  call 0 [VArr []; VArr [VArr []]] [new_ElementBuilder "p" false] =
    ([new_ElementBuilder "p" false], Ret 0).
Proof.
  apply (proj1 (empty_arguments_change_nothing 0 [VArr []; VArr [VArr []]]
                  [new_ElementBuilder "p" false]
                  (new_ElementBuilder "p" false) eq_refl)).
  reflexivity.
Defined.

(** ** Attribute names stay distinct and keep their place *)

Lemma obj_get_None (o : obj) (k : string) :
  obj_get o k = None <-> ~ In k (map fst o).
Proof.
  induction o as [|[a w] o IH]; simpl; [tauto|].
  destruct (String.eqb a k) eqn:E.
  - apply String.eqb_eq in E. split; [discriminate | tauto].
  - apply String.eqb_neq in E. rewrite IH. tauto.
Qed.

Lemma obj_update_names (o : obj) (k : string) (v : prim) :
  map fst (obj_update o k v) = map fst o.
Proof.
  induction o as [|[a w] o IH]; simpl; [reflexivity|].
  destruct (String.eqb a k) eqn:E; simpl.
  - apply String.eqb_eq in E. congruence.
  - rewrite IH. reflexivity.
Qed.

Lemma obj_insert_index_In (o : obj) (i : N) (k x : string) (v : prim) :
  In x (map fst (obj_insert_index o i k v)) <-> x = k \/ In x (map fst o).
Proof.
  induction o as [|[a w] o IH]; simpl; [intuition congruence|].
  destruct (array_index a) as [j|]; [destruct (j <? i)%N|]; simpl;
    rewrite ?IH; intuition congruence.
Qed.

Lemma obj_insert_index_NoDup (o : obj) (i : N) (k : string) (v : prim) :
  NoDup (map fst o) -> ~ In k (map fst o) ->
  NoDup (map fst (obj_insert_index o i k v)).
Proof.
  induction o as [|[a w] o IH]; simpl; intros Hnd Hk.
  - repeat constructor. intros H. inversion H.
  - apply NoDup_cons in Hnd as [Ha Hnd].
    rewrite list_elem_of_In in Ha.
    assert (Hnew : NoDup (k :: a :: map fst o)).
    { apply NoDup_cons. split.
      - rewrite list_elem_of_In. simpl. tauto.
      - apply NoDup_cons. rewrite list_elem_of_In. auto. }
    destruct (array_index a) as [j|]; [destruct (j <? i)%N|]; simpl;
      try exact Hnew.
    apply NoDup_cons. split.
    + rewrite list_elem_of_In, obj_insert_index_In. intuition congruence.
    + apply IH; tauto.
Qed.

Lemma obj_set_NoDup (o : obj) (k : string) (v : prim) :
  NoDup (map fst o) -> NoDup (map fst (obj_set o k v)).
Proof.
  intros Hnd. unfold obj_set. destruct (obj_get o k) eqn:E.
  - rewrite obj_update_names. exact Hnd.
  - apply obj_get_None in E. destruct (array_index k).
    + apply obj_insert_index_NoDup; assumption.
    + rewrite map_app. apply NoDup_app. split; [exact Hnd|]. split.
      * intros x Hx Hin. apply list_elem_of_In in Hin. simpl in Hin.
        destruct Hin as [<- | []]. apply E. apply list_elem_of_In. exact Hx.
      * repeat constructor. intros H. inversion H.
Qed.

Lemma attrs_set_NoDup (a : attrs_object) (k : string) (v : prim) :
  NoDup (map fst (own a)) -> NoDup (map fst (own (attrs_set a k v))).
Proof.
  intros Hnd. unfold attrs_set.
  destruct (obj_get (own a) k); [apply obj_set_NoDup; exact Hnd|].
  destruct (String.eqb k "__proto__" && inherits a).
  - destruct v; exact Hnd.
  - apply obj_set_NoDup. exact Hnd.
Qed.

Lemma set_attr_NoDup (n : Node) (k : string) (v : prim) :
  NoDup (map fst (attrs_of n)) ->
  NoDup (map fst (attrs_of (set_attr k v n).1)).
Proof.
  intros Hnd. unfold attrs_of at 1. simpl. apply attrs_set_NoDup.
  rewrite own_attrs_obj. exact Hnd.
Qed.

Lemma attrs_set_owned (a : attrs_object) (k : string) (v : prim) :
  In k (map fst (own a)) ->
  own (attrs_set a k v) = obj_update (own a) k v.
Proof.
  intros Hin. unfold attrs_set, obj_set.
  destruct (obj_get (own a) k) eqn:E; [reflexivity|].
  apply obj_get_None in E. contradiction.
Qed.

Lemma attrs_of_ensure (n : Node) : attrs_of (ensure_attrs n).1 = attrs_of n.
Proof. unfold attrs_of at 1. simpl. apply own_attrs_obj. Qed.

(** Lifting a property of the receiver through [parse]. *)
Lemma parse_invariant (P : Node -> Prop) (Q : child -> Prop) :
  (forall n k v, P n -> P (set_attr k v n).1) ->
  (forall n c, Q c -> P n -> P (push_child c n).1) ->
  (forall n, P n -> P (ensure_attrs n).1) ->
  forall v, Forall Q (concat (map child_entry (flatten v))) ->
  forall n, P n -> P (parse v n).1.
Proof.
  intros Hset Hpush Hens.
  induction v using value_nested_ind; intros HQ n Hn; simpl; auto;
    try (apply Hpush; [|exact Hn]; simpl in HQ;
         apply Forall_cons in HQ as [HQ _]; exact HQ).
  - simpl in HQ. revert n Hn.
    induction H as [|x rest Hx _ IH]; intros n Hn; simpl; [exact Hn|].
    simpl in HQ. rewrite map_app, concat_app in HQ.
    apply Forall_app in HQ as [HQ1 HQ2].
    unfold bind. specialize (Hx HQ1 n Hn).
    destruct (parse x n) as [n1 []]; simpl in *; auto.
  - unfold mbind, M_bind, bind. simpl.
    assert (Hall : forall o m, P m ->
              P (forEach (fun kv => set_attr kv.1 kv.2) o m).1).
    { induction o as [|[k v] o IHo]; intros m Hm; simpl; [exact Hm|].
      unfold bind. simpl. apply IHo. apply (Hset m k v Hm). }
    apply Hall. apply (Hens n Hn).
Qed.

Lemma forEach_parse_invariant (P : Node -> Prop) (Q : child -> Prop) :
  (forall n k v, P n -> P (set_attr k v n).1) ->
  (forall n c, Q c -> P n -> P (push_child c n).1) ->
  (forall n, P n -> P (ensure_attrs n).1) ->
  forall args, Forall Q (flat_children args) ->
  forall n, P n -> P (forEach parse args n).1.
Proof.
  intros Hset Hpush Hens args HQ n Hn. rewrite <- parse_arr.
  apply (parse_invariant P Q Hset Hpush Hens (VArr args)); assumption.
Qed.

(** X9. The names of the stored attributes stay distinct through every
    call, so no attribute is rendered twice; and giving a value to a name
    that is already stored replaces the value where it stands, the order
    of the names being kept. *)
Theorem attribute_names_distinct_and_in_place
    (self : nat) (args : list value) (h : heap) (build : Node) :
  h !! self = Some build ->
  NoDup (map fst (attrs_of build)) ->
  (exists build',
     (call self args h).1 !! self = Some build' /\
     NoDup (map fst (attrs_of build'))) /\
  (forall k v,
     In k (map fst (attrs_of build)) ->
     exists build',
       call self [VObj [(k, v)]] h = (<[self := build']> h, Ret self) /\
       map fst (attrs_of build') = map fst (attrs_of build) /\
       obj_get (attrs_of build') k = Some v).
Proof.
  intros Hb Hnd. split.
  - exists (forEach parse args build).1. rewrite (call_heap _ _ _ _ Hb).
    split; [eapply heap_lookup_written; eauto|].
    apply (forEach_parse_invariant
             (fun n => NoDup (map fst (attrs_of n))) (fun _ => True));
      auto.
    + intros n k v Hn. apply set_attr_NoDup. exact Hn.
    + intros n Hn. rewrite attrs_of_ensure. exact Hn.
    + apply Forall_forall. auto.
  - intros k v Hin. eexists. split.
    + rewrite (call_unfold _ _ _ _ Hb), forEach_one, parse_obj. reflexivity.
    + rewrite <- own_attrs_obj in Hin. unfold attrs_of at 1 3. simpl.
      rewrite (attrs_set_owned _ k v Hin), own_attrs_obj. split.
      * apply obj_update_names.
      * rewrite <- own_attrs_obj in *. rewrite obj_get_update.
        destruct (obj_get (own (attrs_obj build)) k) eqn:E.
        -- rewrite String.eqb_refl. reflexivity.
        -- apply obj_get_None in E. contradiction.
Qed.

Lemma attribute_names_distinct_and_in_place_witness :
  exists build',
    (call 0 [VObj [("b", PStr "1"); ("a", PStr "2")]; VObj [("b", PStr "3")]]
       [new_ElementBuilder "p" false]).1 !! 0 = Some build' /\
    NoDup (map fst (attrs_of build')).
Proof.
  apply (proj1 (attribute_names_distinct_and_in_place 0
                  [VObj [("b", PStr "1"); ("a", PStr "2")];
                   VObj [("b", PStr "3")]]
                  [new_ElementBuilder "p" false]
                  (new_ElementBuilder "p" false) eq_refl
                  (@NoDup_nil_2 string))).
Defined.

(** ** Heaps that the constructors and calls build *)

Lemma child_ok_mono (b b' : nat) (c : child) :
  b <= b' -> child_ok b c -> child_ok b' c.
Proof. intros Hle. destruct c as [[]|ce]; simpl; auto. lia. Qed.

Lemma node_wf_mono (b b' : nat) (n : Node) :
  b <= b' -> node_wf b n -> node_wf b' n.
Proof.
  intros Hle [H1 H2]. split; [exact H1|].
  eapply Forall_impl; [exact H2|]. intros c. apply child_ok_mono. exact Hle.
Qed.

Lemma heap_wf_alloc (h : heap) (n : Node) :
  heap_wf h -> _attrs n = None -> _children n = None -> heap_wf (h ++ [n]).
Proof.
  intros Hwf Ha Hc ce m Hm. rewrite length_app. simpl.
  destruct (decide (ce < length h)) as [Hlt|Hge].
  - rewrite lookup_app_l in Hm by exact Hlt.
    eapply node_wf_mono; [|eapply Hwf; eauto]. lia.
  - rewrite lookup_app_r in Hm by lia.
    destruct (ce - length h) as [|i]; [|destruct i; discriminate].
    injection Hm as <-. unfold node_wf, attrs_of, children_of.
    rewrite Ha, Hc. split; constructor.
Qed.

Lemma node_wf_parse (bound : nat) (args : list value) (n : Node) :
  Forall (child_ok bound) (flat_children args) ->
  node_wf bound n -> node_wf bound (forEach parse args n).1.
Proof.
  intros Hargs.
  assert (Hset : forall m k v, node_wf bound m ->
                   node_wf bound (set_attr k v m).1).
  { intros m k v [H1 H2]. split; [|exact H2].
    apply set_attr_NoDup. exact H1. }
  assert (Hpush : forall m c, child_ok bound c -> node_wf bound m ->
                    node_wf bound (push_child c m).1).
  { intros m c Hc [H1 H2]. split; [exact H1|].
    unfold children_of at 1. simpl. apply Forall_app. split; [exact H2|].
    constructor; [exact Hc | constructor]. }
  assert (Hens : forall m, node_wf bound m -> node_wf bound (ensure_attrs m).1).
  { intros m [H1 H2]. split; [|exact H2]. rewrite attrs_of_ensure. exact H1. }
  apply (forEach_parse_invariant (node_wf bound) (child_ok bound)
           Hset Hpush Hens args Hargs).
Qed.

(** X10. The heaps reached through the constructors and calls are well
    formed: the empty heap is; [create], an accessor and [frag] keep a
    heap so; and so does a call, returning or throwing, whose arguments
    hold only handles of the heap.  In such a heap attribute names are
    distinct, no literal child is [null] or [undefined], and every handle
    held as a child names a Node. *)
Theorem constructors_and_calls_keep_heap_wf (h : heap) :
  heap_wf h ->
  heap_wf [] /\
  (forall tag, heap_wf (create tag h).1) /\
  (forall reg name, heap_wf (getter reg name h).1) /\
  (forall reg, heap_wf (frag reg h).1) /\
  (forall self args,
     Forall (child_ok (length h)) (flat_children args) ->
     heap_wf (call self args h).1).
Proof.
  intros Hwf. split; [|split; [|split; [|split]]].
  - intros ce n Hn. discriminate.
  - intros tag. apply heap_wf_alloc; auto.
  - intros reg name. unfold getter.
    destruct (reg !! name); [apply heap_wf_alloc; auto|].
    destruct (String.eqb name "frag"); [apply heap_wf_alloc; auto|].
    destruct (existsb (String.eqb name) inherited_names); exact Hwf.
  - intros reg. destruct (frag_run reg h) as (n & E & Hc & Ha & _).
    rewrite E. apply heap_wf_alloc; auto.
  - intros self args Hargs.
    destruct (h !! self) as [build|] eqn:Hb.
    2:{ rewrite (call_missing _ _ _ Hb). exact Hwf. }
    rewrite (call_heap _ _ _ _ Hb). intros ce n Hn.
    rewrite length_insert.
    destruct (decide (ce = self)) as [->|Hne].
    + rewrite (heap_lookup_written _ _ _ _ Hb) in Hn. injection Hn as <-.
      apply node_wf_parse; [exact Hargs|]. eapply Hwf; eauto.
    + rewrite list_lookup_insert_ne in Hn by congruence. eapply Hwf; eauto.
Qed.

Lemma constructors_and_calls_keep_heap_wf_witness :
  heap_wf (call 0 [VStr "a"; VHandle 0; VNull] (create "p" []).1).1.
Proof.
  assert (H0 : heap_wf []) by (intros ce n Hn; discriminate).
  destruct (constructors_and_calls_keep_heap_wf [] H0) as (_ & Hc & _).
  destruct (constructors_and_calls_keep_heap_wf _ (Hc "p"))
    as (_ & _ & _ & _ & Hcall).
  apply Hcall. simpl. repeat constructor.
Defined.

(** ** How a rendering can end *)

Lemma each_child_outcome {R A} (render : nat -> M heap R)
    (on_ref : A -> R -> A) (on_lit : A -> prim -> A)
    (cs : list child) (acc : A) (h : heap) :
  (forall ce, (render ce h).1 = h) ->
  (forall ce, In (Ref ce) cs ->
     (exists r, (render ce h).2 = Ret r) \/ (render ce h).2 = Fuel) ->
  (exists a, (each_child render on_ref on_lit cs acc h).2 = Ret a) \/
  (each_child render on_ref on_lit cs acc h).2 = Fuel.
Proof.
  intros Hf. revert acc. induction cs as [|c rest IH]; intros acc Hr; simpl.
  - left. eauto.
  - destruct c as [p|ce].
    + apply IH. intros ce Hin. apply Hr. right. exact Hin.
    + unfold bind. specialize (Hf ce).
      destruct (Hr ce (or_introl eq_refl)) as [[r Er] | Er];
        destruct (render ce h) as [h1 r1]; simpl in *; subst h1 r1.
      * apply IH. intros ce' Hin. apply Hr. right. exact Hin.
      * right. reflexivity.
Qed.

Lemma child_ok_ref (h : heap) (n : Node) (ce : nat) :
  node_wf (length h) n -> In (Ref ce) (children_of n) -> ce < length h.
Proof.
  intros [_ Hc] Hin. rewrite Forall_forall in Hc.
  apply (Hc (Ref ce)). apply list_elem_of_In. exact Hin.
Qed.

Lemma rendering_outcome (h : heap) (fuel ce : nat) :
  heap_wf h -> ce < length h ->
  ((exists s, (html fuel ce h).2 = Ret s) \/ (html fuel ce h).2 = Fuel) /\
  ((exists d, (dom fuel ce h).2 = Ret d) \/ (dom fuel ce h).2 = Fuel).
Proof.
  intros Hwf. revert ce. induction fuel as [|fuel IH]; intros ce Hlt.
  - split; right; reflexivity.
  - destruct (lookup_lt_is_Some_2 h ce Hlt) as [this Hb].
    pose proof (Hwf ce this Hb) as Hn.
    assert (Hh : (exists s, (children_html fuel (children_of this) h).2 = Ret s)
                 \/ (children_html fuel (children_of this) h).2 = Fuel).
    { apply each_child_outcome; [intros; apply html_frame|].
      intros c Hin. apply IH. eapply child_ok_ref; eauto. }
    assert (Hd : (exists s, (children_dom fuel (children_of this) h).2 = Ret s)
                 \/ (children_dom fuel (children_of this) h).2 = Fuel).
    { apply each_child_outcome; [intros; apply dom_frame|].
      intros c Hin. apply IH. eapply child_ok_ref; eauto. }
    destruct (_proto this) eqn:Hp.
    + rewrite (html_element fuel ce h this Hb Hp),
        (dom_element fuel ce h this Hb Hp). simpl.
      destruct (_isSelfClosing this); [split; left; eauto|].
      split.
      * destruct Hh as [[s ->] | ->]; simpl; eauto.
      * destruct Hd as [[s ->] | ->]; simpl; eauto.
    + rewrite (html_fragment fuel ce h this Hb Hp),
        (dom_fragment fuel ce h this Hb Hp). simpl.
      destruct (_isSelfClosing this); [split; left; eauto|].
      split.
      * destruct Hh as [[s ->] | ->]; simpl; eauto.
      * destruct Hd as [[s ->] | ->]; simpl; eauto.
Qed.

(** X11. On a well-formed heap a rendering of a handle of the heap never
    meets a handle without a Node.  [html] either returns or exhausts the
    recursion budget, which the source does by recursing without end;
    and so does [dom] when the host takes every tag and attribute name of
    the heap as it is. *)
Theorem rendering_returns_or_recurses (h : heap) (fuel ce : nat) :
  heap_wf h -> ce < length h ->
  ((exists s, (html fuel ce h).2 = Ret s) \/ (html fuel ce h).2 = Fuel) /\
  ((forall c n, h !! c = Some n -> host_node n) ->
   (exists d, (dom fuel ce h).2 = Ret d) \/ (dom fuel ce h).2 = Fuel).
Proof.
  intros Hwf Hlt. destruct (rendering_outcome h fuel ce Hwf Hlt) as [H1 H2].
  split; [exact H1 | intros _; exact H2].
Qed.

Lemma rendering_returns_or_recurses_witness :
  (exists s, (html 3 0 [new_ElementBuilder "p" false]).2 = Ret s) \/
  (html 3 0 [new_ElementBuilder "p" false]).2 = Fuel.
Proof.
  apply (rendering_returns_or_recurses [new_ElementBuilder "p" false] 3 0).
  - intros [|ce] n Hn; [|discriminate]. injection Hn as <-.
    split; constructor.
  - simpl. lia.
Defined.

(** ** A handle that is its own child *)

Lemma each_child_not_ret {R A} (render : nat -> M heap R)
    (on_ref : A -> R -> A) (on_lit : A -> prim -> A)
    (cs : list child) (acc : A) (h : heap) (c : nat) :
  (forall ce, (render ce h).1 = h) ->
  In (Ref c) cs ->
  (forall r, (render c h).2 <> Ret r) ->
  forall a, (each_child render on_ref on_lit cs acc h).2 <> Ret a.
Proof.
  intros Hf Hin Hc. revert acc.
  induction cs as [|x rest IH]; intros acc a; [destruct Hin|].
  simpl. destruct x as [p|ce].
  - apply IH. destruct Hin as [Hin|Hin]; [discriminate | exact Hin].
  - unfold bind. specialize (Hf ce).
    destruct (render ce h) as [h1 r1] eqn:E. simpl in Hf. subst h1.
    destruct r1 as [r| | |]; try discriminate.
    destruct Hin as [Hin|Hin].
    + injection Hin as ->. exfalso. apply (Hc r). rewrite E. reflexivity.
    + apply IH. exact Hin.
Qed.

Lemma never_renders_up (h : heap) (ce c : nat) (this : Node) :
  h !! ce = Some this -> _isSelfClosing this = false ->
  In (Ref c) (children_of this) ->
  forall fuel,
    ((forall s, (html fuel c h).2 <> Ret s) ->
     forall s, (html (S fuel) ce h).2 <> Ret s) /\
    ((forall d, (dom fuel c h).2 <> Ret d) ->
     forall d, (dom (S fuel) ce h).2 <> Ret d).
Proof.
  intros Hb Hsc Hin fuel. split; intros Hc x.
  - assert (Hcs : forall a,
              (children_html fuel (children_of this) h).2 <> Ret a).
    { apply (each_child_not_ret _ _ _ _ _ _ c); auto.
      intros; apply html_frame. }
    destruct (_proto this) eqn:Hp.
    + rewrite (html_element fuel ce h this Hb Hp), Hsc. simpl.
      destruct ((children_html fuel (children_of this) h).2) as [a| | |] eqn:E;
        simpl; try discriminate. destruct (Hcs a eq_refl).
    + rewrite (html_fragment fuel ce h this Hb Hp), Hsc. simpl.
      intros E. apply (Hcs x E).
  - assert (Hcs : forall a,
              (children_dom fuel (children_of this) h).2 <> Ret a).
    { apply (each_child_not_ret _ _ _ _ _ _ c); auto.
      intros; apply dom_frame. }
    destruct (_proto this) eqn:Hp.
    + rewrite (dom_element fuel ce h this Hb Hp), Hsc. simpl.
      destruct ((children_dom fuel (children_of this) h).2) as [a| | |] eqn:E;
        simpl; try discriminate. destruct (Hcs a eq_refl).
    + rewrite (dom_fragment fuel ce h this Hb Hp), Hsc. simpl.
      destruct ((children_dom fuel (children_of this) h).2) as [a| | |] eqn:E;
        simpl; try discriminate. destruct (Hcs a eq_refl).
Qed.

Lemma returned_false {A} (r : result A) :
  returned r = false <-> forall a, r <> Ret a.
Proof.
  destruct r as [a| | |]; simpl; split; intros H;
    try reflexivity; try congruence.
  destruct (H a eq_refl).
Qed.

(** X12. A handle that is not self-closing and holds itself as a child,
    as after [d(d)], cannot be rendered: neither [html] nor [dom] returns
    for any recursion budget.  The same holds for every handle that is
    not self-closing and holds, as a child, a handle that cannot be
    rendered. *)
Theorem self_child_never_renders (h : heap) (ce : nat) (this : Node) :
  h !! ce = Some this ->
  _isSelfClosing this = false ->
  (In (Ref ce) (children_of this) ->
   forall fuel,
     returned (html fuel ce h).2 = false /\
     returned (dom fuel ce h).2 = false) /\
  (forall c,
     In (Ref c) (children_of this) ->
     (forall fuel, returned (html fuel c h).2 = false) ->
     (forall fuel, returned (dom fuel c h).2 = false) ->
     forall fuel,
       returned (html fuel ce h).2 = false /\
       returned (dom fuel ce h).2 = false).
Proof.
  intros Hb Hsc. split.
  - intros Hin. induction fuel as [|fuel [IH1 IH2]].
    + split; reflexivity.
    + destruct (never_renders_up h ce ce this Hb Hsc Hin fuel) as [U1 U2].
      pose proof (proj1 (returned_false _) IH1) as N1.
      pose proof (proj1 (returned_false _) IH2) as N2.
      split; apply returned_false; [apply U1, N1 | apply U2, N2].
  - intros c Hin Hh Hd [|fuel]; [split; reflexivity|].
    destruct (never_renders_up h ce c this Hb Hsc Hin fuel) as [U1 U2].
    pose proof (proj1 (returned_false _) (Hh fuel)) as N1.
    pose proof (proj1 (returned_false _) (Hd fuel)) as N2.
    split; apply returned_false; [apply U1, N1 | apply U2, N2].
Qed.

Lemma self_child_never_renders_witness :
  returned
    (html 5 0 (call 0 [VHandle 0] [new_ElementBuilder "div" false]).1).2
    = false.
Proof.
  apply (proj1 (self_child_never_renders
                  (call 0 [VHandle 0] [new_ElementBuilder "div" false]).1 0
                  {| _proto := ElementBuilder_prototype; _tag := Some "div";
                     _isSelfClosing := false; _attrs := None;
                     _children := Some [Ref 0] |} eq_refl eq_refl)).
  simpl. left. reflexivity.
Defined.

(** ** Fragments dissolve into their parent *)

Lemma each_child_inv {R A} (render : nat -> M heap R)
    (on_ref : A -> R -> A) (on_lit : A -> prim -> A)
    (P : A -> Prop) (Q : R -> Prop) (cs : list child) (h : heap) :
  (forall ce, (render ce h).1 = h) ->
  (forall ce r, (render ce h).2 = Ret r -> Q r) ->
  (forall acc r, P acc -> Q r -> P (on_ref acc r)) ->
  (forall acc p, P acc -> P (on_lit acc p)) ->
  forall acc a,
    P acc -> (each_child render on_ref on_lit cs acc h).2 = Ret a -> P a.
Proof.
  intros Hf HQ Href Hlit. induction cs as [|x rest IH]; intros acc a Hacc; simpl.
  - intros E. injection E as <-. exact Hacc.
  - destruct x as [p|ce].
    + apply IH. apply Hlit. exact Hacc.
    + unfold bind. specialize (Hf ce). specialize (HQ ce).
      destruct (render ce h) as [h1 r1]. simpl in *. subst h1.
      destruct r1 as [r| | |]; try discriminate.
      apply IH. apply Href; auto.
Qed.

(** X13. The tree [dom] returns holds no document fragment below its
    root: a fragment child gives its own children to the parent in its
    place, so only the root can be a fragment, and then its children are
    elements and text nodes free of fragments. *)
Theorem dom_dissolves_fragments (h : heap) (fuel ce : nat) (d : dom_node) :
  (dom fuel ce h).2 = Ret d ->
  forallb fragment_free (appended d) = true.
Proof.
  revert ce d. induction fuel as [|fuel IH]; intros ce d; [discriminate|].
  destruct (h !! ce) as [this|] eqn:Hb.
  2:{ rewrite (dom_stuck fuel ce h Hb). discriminate. }
  assert (Hkids : forall kids,
            (children_dom fuel (children_of this) h).2 = Ret kids ->
            forallb fragment_free kids = true).
  { intros kids.
    apply (each_child_inv (dom fuel) _ _
             (fun kids => forallb fragment_free kids = true)
             (fun r => forallb fragment_free (appended r) = true)).
    - intros; apply dom_frame.
    - intros c r. apply IH.
    - intros acc r Hacc Hr. rewrite forallb_app, Hacc, Hr. reflexivity.
    - intros acc p Hacc. rewrite forallb_app, Hacc. reflexivity.
    - reflexivity. }
  destruct (_proto this) eqn:Hp.
  - rewrite (dom_element fuel ce h this Hb Hp). simpl.
    destruct (_isSelfClosing this).
    + intros E. injection E as <-. reflexivity.
    + destruct ((children_dom fuel (children_of this) h).2) as [kids| | |];
        try discriminate.
      simpl. intros E. injection E as <-. simpl.
      rewrite (Hkids kids eq_refl). reflexivity.
  - rewrite (dom_fragment fuel ce h this Hb Hp). simpl.
    destruct (_isSelfClosing this).
    + intros E. injection E as <-. reflexivity.
    + destruct ((children_dom fuel (children_of this) h).2) as [kids| | |];
        try discriminate.
      simpl. intros E. injection E as <-. simpl. apply Hkids. reflexivity.
Qed.

Lemma dom_dissolves_fragments_witness :
  forallb fragment_free
    (appended (Element "p" [] [Text "a"; Text "b"])) = true.
Proof.
  apply (dom_dissolves_fragments
           [{| _proto := ElementBuilder_prototype; _tag := Some "p";
               _isSelfClosing := false; _attrs := None;
               _children := Some [Ref 1] |};
            {| _proto := FragmentBuilder_prototype; _tag := None;
               _isSelfClosing := false; _attrs := None;
               _children := Some [Lit (PStr "a"); Lit (PStr "b")] |}]
           2 0).
  reflexivity.
Defined.

Lemma renderers_agree_on_plain_nodes_witness :
  res_map (serialize (fun t => String.eqb t "br")) (dom 2 0 paragraph_heap).2
    = (html 2 0 paragraph_heap).2.
Proof.
  apply (renderers_agree_on_plain_nodes (fun t => String.eqb t "br")
           paragraph_heap).
  intros ce this Hb.
  destruct ce as [|[|ce]]; try discriminate; injection Hb as <-;
    (split; [intros _; eexists; repeat split; repeat constructor|]);
    (split; [repeat constructor; discriminate|]);
    (split; [repeat constructor; inversion 1|]);
    repeat constructor; discriminate.
Defined.

(** ** Rendering a heap without cycles *)

(** X15. On a heap without cycles or dangling handles, whose tag and
    attribute names the host takes as they are, both renderers return
    for every handle of the heap, as soon as the recursion budget
    exceeds the rank of the handle, and leave the heap as it was. *)
Theorem acyclic_heap_renders
    (h : heap) (rank : nat -> nat) (fuel ce : nat) :
  ranked h rank ->
  (forall c n, h !! c = Some n -> host_node n) ->
  is_Some (h !! ce) -> rank ce < fuel ->
  exists s d, html fuel ce h = (h, Ret s) /\ dom fuel ce h = (h, Ret d).
Proof.
  intros Hrk _ Hsome Hlt.
  destruct (html_total h rank Hrk fuel ce Hsome Hlt) as [s Es].
  destruct (dom_total h rank Hrk fuel ce Hsome Hlt) as [d Ed].
  exists s, d. split; assumption.
Qed.

Lemma acyclic_heap_renders_witness :
  exists s d,
    html 2 0 paragraph_heap = (paragraph_heap, Ret s) /\
    dom 2 0 paragraph_heap = (paragraph_heap, Ret d).
Proof.
  apply (acyclic_heap_renders paragraph_heap (fun ce => 1 - ce) 2 0).
  - intros ce this ch Hb Hin.
    destruct ce as [|[|ce]]; try discriminate; injection Hb as <-;
      simpl in Hin.
    + destruct Hin as [<- | []]. simpl. split; [lia | eauto].
    + destruct Hin.
  - intros c n Hb _.
    destruct c as [|[|c]]; try discriminate; injection Hb as <-;
      split; repeat constructor.
  - simpl. eauto.
  - simpl. lia.
Defined.

(** ** The fragment accessor and a tag named [frag] *)

Lemma tags_last (names : list string) (tag : string) (reg : registry) :
  tags (names ++ [tag]) reg !! (_parseTag tag).1 = Some (_parseTag tag).2.
Proof.
  rewrite tags_app.
  change (tags [tag] (tags names reg))
    with (<[(_parseTag tag).1 := (_parseTag tag).2]> (tags names reg)).
  apply lookup_insert_eq.
Qed.

(** X16. While no tag named [frag] is registered, [registry.frag] makes a
    fragment, which renders to the empty string as long as it is empty.
    An own getter named [frag] stands in front of the fragment accessor:
    [registry.frag] then makes an element [<frag>].  On a registry whose
    methods are in place, registering the tag [frag] (or [frag/]) after
    specifications that name none of the methods defines that getter. *)
Theorem frag_tag_shadows_fragment_accessor (reg : registry) (h : heap) :
  (reg !! "frag" = None ->
   frag reg h = (h ++ [new_FragmentBuilder], Ret (VHandle (length h))) /\
   html 1 (length h) (h ++ [new_FragmentBuilder]) =
     (h ++ [new_FragmentBuilder], Ret "")) /\
  (forall sc,
     reg !! "frag" = Some sc ->
     frag reg h =
       (h ++ [new_ElementBuilder "frag" sc], Ret (VHandle (length h))) /\
     html 1 (length h) (h ++ [new_ElementBuilder "frag" sc]) =
       (h ++ [new_ElementBuilder "frag" sc],
        Ret (if sc then "<frag/>" else "<frag></frag>"))) /\
  (forall names,
     methods_intact reg ->
     forallb benign names = true ->
     tags (names ++ ["frag"]) reg !! "frag" = Some false /\
     tags (names ++ ["frag/"]) reg !! "frag" = Some true).
Proof.
  split; [|split].
  - intros E. split; [unfold frag; rewrite E; reflexivity|].
    rewrite (html_fragment 0 _ _ new_FragmentBuilder
               (list_lookup_middle h [] _ _ eq_refl) eq_refl).
    reflexivity.
  - intros sc E. split.
    + unfold frag. rewrite E. apply getter_run. exact E.
    + rewrite (html_element 0 _ _ (new_ElementBuilder "frag" sc)
                 (list_lookup_middle h [] _ _ eq_refl) eq_refl).
      destruct sc; reflexivity.
  - intros names _ _. split.
    + apply (tags_last names "frag" reg).
    + apply (tags_last names "frag/" reg).
Qed.

Lemma frag_tag_shadows_fragment_accessor_witness :
  frag (JSML ["div"; "frag"]) [] =
    ([new_ElementBuilder "frag" false], Ret (VHandle 0)).
Proof.
  apply (proj1 (proj2 (frag_tag_shadows_fragment_accessor
                         (JSML ["div"; "frag"]) []))).
  reflexivity.
Defined.

(** ** What reaches the document verbatim *)

Lemma literal_children_html (fuel : nat) (texts : list string) (h : heap) :
  children_html fuel (map (fun s => Lit (PStr s)) texts) h =
    (h, Ret (sconcat texts)).
Proof.
  unfold children_html.
  assert (Hacc : forall acc,
            each_child (html fuel) String.append
              (fun acc p => acc +:+ join_item p)
              (map (fun s => Lit (PStr s)) texts) acc h =
            (h, Ret (acc +:+ sconcat texts))).
  { induction texts as [|s rest IH]; intros acc; simpl.
    - rewrite sapp_nil_r. reflexivity.
    - rewrite IH, sapp_assoc. reflexivity. }
  apply Hacc.
Qed.

Lemma literal_children_dom (fuel : nat) (texts : list string) (h : heap) :
  children_dom fuel (map (fun s => Lit (PStr s)) texts) h =
    (h, Ret (map Text texts)).
Proof.
  unfold children_dom.
  assert (Hacc : forall acc,
            each_child (dom fuel) (fun acc d => acc ++ appended d)
              (fun acc p => acc ++ [createTextNode p])
              (map (fun s => Lit (PStr s)) texts) acc h =
            (h, Ret (acc ++ map Text texts))).
  { induction texts as [|s rest IH]; intros acc; simpl.
    - rewrite app_nil_r. reflexivity.
    - rewrite IH, <- app_assoc. reflexivity. }
  apply Hacc.
Qed.

(** X17. Strings given as children reach both outputs unchanged, with no
    escaping: an element that is not self-closing and whose children are
    all strings renders, without recursion, to its open tag, the strings
    one after the other and its close tag, and its [dom] holds one text
    node per string with exactly that string. *)
Theorem string_children_verbatim
    (ce : nat) (h : heap) (this : Node) (texts : list string) :
  h !! ce = Some this ->
  _proto this = ElementBuilder_prototype ->
  _isSelfClosing this = false ->
  children_of this = map (fun s => Lit (PStr s)) texts ->
  html 1 ce h =
    (h, Ret ("<" +:+ join_item (tag_value this) +:+
             attrs_text (attrs_of this) +:+ ">" +:+ sconcat texts +:+
             "</" +:+ ToString (tag_value this) +:+ ">")) /\
  dom 1 ce h =
    (h, Ret (Element (ToString (tag_value this))
               (dom_attr_list (attrs_of this)) (map Text texts))).
Proof.
  intros Hb Hp Hsc Hcs. split.
  - rewrite (html_element 0 ce h this Hb Hp), Hsc, Hcs,
      literal_children_html. reflexivity.
  - rewrite (dom_element 0 ce h this Hb Hp), Hsc, Hcs,
      literal_children_dom. reflexivity.
Qed.

Lemma string_children_verbatim_witness :
  html 1 0 [{| _proto := ElementBuilder_prototype; _tag := Some "p";
               _isSelfClosing := false; _attrs := None;
               _children := Some [Lit (PStr "<b>"); Lit (PStr "&")] |}] =
    ([{| _proto := ElementBuilder_prototype; _tag := Some "p";
         _isSelfClosing := false; _attrs := None;
         _children := Some [Lit (PStr "<b>"); Lit (PStr "&")] |}],
     Ret "<p><b>&</p>").
Proof.
  apply (proj1 (string_children_verbatim 0
                  [{| _proto := ElementBuilder_prototype; _tag := Some "p";
                      _isSelfClosing := false; _attrs := None;
                      _children := Some [Lit (PStr "<b>"); Lit (PStr "&")] |}]
                  {| _proto := ElementBuilder_prototype; _tag := Some "p";
                     _isSelfClosing := false; _attrs := None;
                     _children := Some [Lit (PStr "<b>"); Lit (PStr "&")] |}
                  ["<b>"; "&"] eq_refl eq_refl eq_refl eq_refl)).
Defined.

(** X18. When the host takes the tag and the attribute names as they
    are, the element [dom] returns carries every stored attribute, in
    stored order, under its name and with the string form of its value;
    a [null] value, which [html] leaves out, arrives as the string
    [null]. *)
Theorem dom_sets_every_attribute
    (fuel ce : nat) (h : heap) (this : Node) (d : dom_node) :
  h !! ce = Some this ->
  _proto this = ElementBuilder_prototype ->
  host_node this ->
  NoDup (map fst (attrs_of this)) ->
  (dom (S fuel) ce h).2 = Ret d ->
  exists kids,
    d = Element (ToString (tag_value this))
          (map (fun kv => (kv.1, ToString kv.2)) (attrs_of this)) kids.
Proof.
  intros Hb Hp _ Hnd. rewrite (dom_element fuel ce h this Hb Hp). simpl.
  unfold dom_attr_list. rewrite dom_attr_fold by (auto; intros ? ? []).
  simpl app. destruct (_isSelfClosing this).
  - intros E. injection E as <-. eauto.
  - destruct ((children_dom fuel (children_of this) h).2) as [kids| | |];
      try discriminate.
    simpl. intros E. injection E as <-. eauto.
Qed.

Lemma dom_sets_every_attribute_witness :
  exists kids,
    Element "input" [("type", "checkbox"); ("checked", "null")] [] =
    Element (ToString (tag_value checkbox))
      (map (fun kv => (kv.1, ToString kv.2)) (attrs_of checkbox)) kids.
Proof.
  apply (dom_sets_every_attribute 0 0 [checkbox] checkbox _ eq_refl eq_refl).
  - intros _. split; repeat constructor.
  - repeat constructor; [inversion 1 as [|? ? ? Hin]; inversion Hin
                        | inversion 1].
  - reflexivity.
Defined.

Lemma create_matches_accessor_witness :
  getter (tags ["br/"] ∅) "br" [new_ElementBuilder "p" false] =
    ([new_ElementBuilder "p" false; new_ElementBuilder "br" true],
     Ret (VHandle 1)).
Proof.
  assert (H0 : methods_intact (∅ : gmap string bool))
    by (repeat constructor).
  exact (proj1 (proj2 (create_matches_accessor "br/" ∅
                         [new_ElementBuilder "p" false] H0))).
Defined.
